(** * VAT calculator: a shallow embedding of the arithmetic engine, the
    history store and the auto-save hook, with the properties checked
    against them.

    JavaScript numbers are IEEE 754 binary64 values; they are modelled by
    Rocq's primitive floats, whose operations are the processor's.  The
    built-ins of the language that the program calls ([Math.round],
    [Math.pow], [parseFloat], [Number.prototype.toFixed], the conversion of
    a number to a string) are written out in [Js]. *)

From Stdlib Require Import ZArith Reals Lia Lra Floats Uint63 Bool List.
From Stdlib Require Import String Ascii.
From Stdlib Require DecimalString.
Import ListNotations.

Set Warnings "-inexact-float".

(** * ECMAScript built-ins *)

Module Js.

Local Open Scope float_scope.

(** [Number.EPSILON], the gap between 1 and the next double. *)
Definition Number_EPSILON : float := 0x1p-52.

(** [isNaN]: NaN is the only number different from itself. *)
Definition isNaN (x : float) : bool := negb (x =? x).

(** A non-negative integer below 2^63 as a double (exact below 2^53). *)
Definition of_nonneg_Z (n : Z) : float := of_uint63 (Uint63.of_Z n).

(** [Math.round]: the integer nearest to [x], a tie going towards
    +infinity; non-finite values and integers are returned unchanged, and a
    result of zero keeps the sign of [x].  For [x = +-m * 2^e] with [e < 0]
    the integer is [floor (x + 1/2)], computed exactly. *)
Definition Math_round (x : float) : float :=
  match Prim2SF x with
  | S754_finite s m e =>
      if (0 <=? e)%Z then x
      else
        match ((cond_Zopp s (2 * Zpos m) + 2 ^ (- e)) / 2 ^ (1 - e))%Z with
        | Z0 => if s then PrimFloat.neg_zero else PrimFloat.zero
        | Zpos n => of_nonneg_Z (Zpos n)
        | Zneg n => - of_nonneg_Z (Zpos n)
        end
  | _ => x
  end.

(** [Math.pow(10, n)] for a non-negative integer [n]: the double nearest to
    10^n, which is 10^n itself up to n = 22.  The language leaves the
    precision of [Math.pow] to the engine, and beyond n = 22 an engine may
    return a neighbour of the nearest double (9.999999999999999e25 has
    been observed for n = 26); the program only asks for n = 2. *)
Definition Math_pow10 (n : nat) : float :=
  SF2Prim (binary_normalize prec emax (10 ^ Z.of_nat n) 0 false).

(** ** Decimal text to number *)

Local Open Scope string_scope.

Definition is_digit (c : ascii) : bool :=
  ((48 <=? nat_of_ascii c) && (nat_of_ascii c <=? 57))%nat.

Definition digit_value (c : ascii) : Z := Z.of_nat (nat_of_ascii c) - 48.

(** White space and line terminators within ASCII (tab, line feed, vertical
    tab, form feed, carriage return, space). *)
Definition is_white (c : ascii) : bool :=
  let n := nat_of_ascii c in
  ((9 <=? n) && (n <=? 13) || (n =? 32))%nat.

Fixpoint trim_start (s : string) : string :=
  match s with
  | String c s' => if is_white c then trim_start s' else s
  | EmptyString => s
  end.

(** Reads the longest run of digits: their value after [acc], how many were
    read after [n], and what follows. *)
Fixpoint read_digits (s : string) (acc : Z) (n : Z) : Z * Z * string :=
  match s with
  | String c s' =>
      if is_digit c then read_digits s' (10 * acc + digit_value c) (n + 1)
      else (acc, n, s)
  | EmptyString => (acc, n, s)
  end.

(** The double nearest to [m * 10^k] for [m >= 0], rounded once. *)
Definition decimal_to_float (m k : Z) : float :=
  match m with
  | Zpos p =>
      match k with
      | Zneg q =>
          let '(mz, ez, lz) :=
            SFdiv_core_binary prec emax (Zpos p) 0 (10 ^ Zpos q) 0 in
          SF2Prim (binary_round_aux prec emax false mz ez lz)
      | _ => SF2Prim (binary_normalize prec emax (Zpos p * 10 ^ k) 0 false)
      end
  | _ => PrimFloat.zero
  end.

(** The exponent part [e], [E] followed by an optional sign and at least one
    digit; absent or malformed, it contributes nothing. *)
Definition read_exponent (s : string) : Z :=
  match s with
  | String c s' =>
      if (Ascii.eqb c "e"%char || Ascii.eqb c "E"%char)%bool then
        let '(neg, s'') :=
          match s' with
          | String "-"%char t => (true, t)
          | String "+"%char t => (false, t)
          | _ => (false, s')
          end in
        let '(v, n, _) := read_digits s'' 0 0 in
        if (n =? 0)%Z then 0%Z else if neg then (- v)%Z else v
      else 0%Z
  | EmptyString => 0%Z
  end.

(** The longest prefix that is an unsigned decimal literal ([Infinity],
    digits with an optional fraction, or a fraction alone, then an optional
    exponent); [None] when there is no such prefix. *)
Definition read_unsigned (s : string) : option float :=
  if prefix "Infinity" s then Some infinity
  else
    let '(iv, ni, s1) := read_digits s 0 0 in
    let '(mv, nf, s2) :=
      match s1 with
      | String "."%char t =>
          let '(v, n, t') := read_digits t iv 0 in
          if ((ni =? 0) && (n =? 0))%Z then (iv, 0%Z, s1) else (v, n, t')
      | _ => (iv, 0%Z, s1)
      end in
    if ((ni =? 0) && (nf =? 0))%Z then None
    else Some (decimal_to_float mv (read_exponent s2 - nf)).

(** [parseFloat]: leading white space is skipped, then the longest prefix
    that is a decimal literal is read; NaN when there is none. *)
Definition parseFloat (input : string) : float :=
  match trim_start input with
  | String "-"%char t =>
      match read_unsigned t with Some v => (- v)%float | None => nan end
  | String "+"%char t =>
      match read_unsigned t with Some v => v | None => nan end
  | t => match read_unsigned t with Some v => v | None => nan end
  end.

(** ** Number to text *)

Definition digits_of_Z (n : Z) : string :=
  DecimalString.NilZero.string_of_uint (N.to_uint (Z.to_N n)).

Fixpoint zeros (n : nat) : string :=
  match n with O => "" | S n' => String "0"%char (zeros n') end.

(** [floor (m * 2^e * 10^k)] for [m >= 0]. *)
Definition scaled_floor (m e k : Z) : Z :=
  let num := (m * 2 ^ Z.max e 0 * 10 ^ Z.max k 0)%Z in
  let den := (2 ^ Z.max (- e) 0 * 10 ^ Z.max (- k) 0)%Z in
  (num / den)%Z.

(** The [n] with [10^(n-1) <= m * 2^e < 10^n], searched upwards from
    [lo]. *)
Fixpoint decimal_exponent (fuel : nat) (m e lo : Z) : Z :=
  match fuel with
  | O => lo
  | S fuel' =>
      if (scaled_floor m e (- lo) =? 0)%Z then lo
      else decimal_exponent fuel' m e (lo + 1)
  end.

(** The shortest digit string that reads back as [x = m * 2^e]: tried with
    [k = 1, 2, ...] digits, the candidates being the two [k]-digit decimals
    around [x]; of two that read back, the nearer one, the even one on a
    tie.  Returns the digits [s] and the exponent [n] with
    [x ~ 0.s * 10^n]. *)
Fixpoint shortest_digits (fuel : nat) (x : float) (m e n k : Z) : Z * Z :=
  let lo := scaled_floor m e (k - n) in
  let hi := (lo + 1)%Z in
  let back v := Leibniz.eqb (decimal_to_float v (n - k)) x in
  let fix_carry v := if (v =? 10 ^ k)%Z then (10 ^ (k - 1), n + 1)%Z else (v, n) in
  match fuel with
  | O => (lo, n)
  | S fuel' =>
      match back lo, back hi with
      | true, true =>
          (* 2 x against lo + hi, both sides cleared of denominators *)
          let a := (2 * m * 2 ^ Z.max e 0 * 10 ^ Z.max (k - n) 0)%Z in
          let b := ((lo + hi) * 10 ^ Z.max (n - k) 0 * 2 ^ Z.max (- e) 0)%Z in
          if (a <? b)%Z then (lo, n)
          else if (b <? a)%Z then fix_carry hi
          else if Z.even lo then (lo, n) else fix_carry hi
      | true, false => (lo, n)
      | false, true => fix_carry hi
      | false, false => shortest_digits fuel' x m e n (k + 1)
      end
  end.

Definition exponent_text (n : Z) : string :=
  (if (n <? 0)%Z then "e-" else "e+") ++ digits_of_Z (Z.abs n).

(** The text of a positive finite number from its digits [s] (of length
    [k]) and decimal exponent [n]. *)
Definition layout (s : string) (n : Z) : string :=
  let k := Z.of_nat (String.length s) in
  if ((k <=? n) && (n <=? 21))%Z then s ++ zeros (Z.to_nat (n - k))
  else if ((0 <? n) && (n <=? 21))%Z then
    substring 0 (Z.to_nat n) s ++ "." ++ substring (Z.to_nat n) (Z.to_nat (k - n)) s
  else if ((- 6 <? n) && (n <=? 0))%Z then "0." ++ zeros (Z.to_nat (- n)) ++ s
  else if (k =? 1)%Z then s ++ exponent_text (n - 1)
  else substring 0 1 s ++ "." ++ substring 1 (Z.to_nat (k - 1)) s ++ exponent_text (n - 1).

(** The conversion of a number to a string (as in a template literal). *)
Definition Number_toString (x : float) : string :=
  match Prim2SF x with
  | S754_nan => "NaN"
  | S754_zero _ => "0"
  | S754_infinity s => if s then "-Infinity" else "Infinity"
  | S754_finite s m e =>
      let n0 := decimal_exponent 700 (Zpos m) e (- 330) in
      let '(d, n) := shortest_digits 17 (abs x) (Zpos m) e n0 1 in
      (if s then "-" else "") ++ layout (digits_of_Z d) n
  end.

(** [Number.prototype.toFixed(f)]: the decimal with [f] fraction digits
    nearest to the number's exact value, the larger one on a tie; numbers
    of magnitude 10^21 and more, and non-finite ones, are converted as by
    [Number_toString]. *)
Definition toFixed (x : float) (f : nat) : string :=
  match Prim2SF x with
  | S754_zero _ =>
      if (f =? 0)%nat then "0" else "0." ++ zeros f
  | S754_finite s m e =>
      if (10 ^ 21 <=? scaled_floor (Zpos m) e 0)%Z then Number_toString x
      else
        let n :=
          if (0 <=? e)%Z then (Zpos m * 2 ^ e * 10 ^ Z.of_nat f)%Z
          else ((2 * Zpos m * 10 ^ Z.of_nat f + 2 ^ (- e)) / 2 ^ (1 - e))%Z in
        let ds := digits_of_Z n in
        let ds := zeros (S f - String.length ds) ++ ds in
        let k := String.length ds in
        (if s then "-" else "") ++
        (if (f =? 0)%nat then ds
         else substring 0 (k - f) ds ++ "." ++ substring (k - f) f ds)
  | _ => Number_toString x
  end.

End Js.

(** * The arithmetic engine ([src/utils/math.ts]) *)

Module VatMath.

Import Js.
Local Open Scope float_scope.

Inductive CalculationMode : Set := Add | Extract.

Record CalculationResult : Set := mkResult {
  mode : CalculationMode;
  vatRate : float;
  priceExcludingVat : float;
  vatAmount : float;
  priceIncludingVat : float;
  timestamp : float
}.

(** The outcome of a call: a value, or an [Error] thrown with its
    message. *)
Inductive Completion (A : Type) : Type :=
  | Return (value : A)
  | Throw (message : string).

Arguments Return {A} value.
Arguments Throw {A} message.

Definition roundToDecimal (value : float) (decimals : nat) : float :=
  let multiplier := Math_pow10 decimals in
  Math_round ((value + Number_EPSILON) * multiplier) / multiplier.

(** [now] stands for the reading of [Date.now()]. *)
Definition addVat (now : float) (price vatRate : float)
  : Completion CalculationResult :=
  if price <? 0 then Throw "Price cannot be negative"
  else if (vatRate <? 0) || (100 <? vatRate) then
    Throw "VAT rate must be between 0 and 100"
  else
    let priceExcludingVat := roundToDecimal price 2 in
    let vatAmount := roundToDecimal (price * (vatRate / 100)) 2 in
    let priceIncludingVat := roundToDecimal (priceExcludingVat + vatAmount) 2 in
    Return (mkResult Add vatRate priceExcludingVat vatAmount priceIncludingVat now).

Definition extractVat (now : float) (total vatRate : float)
  : Completion CalculationResult :=
  if total <? 0 then Throw "Total price cannot be negative"
  else if (vatRate <? 0) || (100 <? vatRate) then
    Throw "VAT rate must be between 0 and 100"
  else
    let priceIncludingVat := roundToDecimal total 2 in
    let priceExcludingVat := roundToDecimal (total / (1 + vatRate / 100)) 2 in
    let vatAmount := roundToDecimal (priceIncludingVat - priceExcludingVat) 2 in
    Return (mkResult Extract vatRate priceExcludingVat vatAmount priceIncludingVat now).

Definition calculateVat (now : float) (amount vatRate : float)
  (mode : CalculationMode) : Completion CalculationResult :=
  match mode with
  | Add => addVat now amount vatRate
  | Extract => extractVat now amount vatRate
  end.

End VatMath.

(** * The history store ([src/store/useHistoryStore.ts]) *)

Module HistoryStore.

Import VatMath.

Record HistoryState : Set := mkStore {
  history : list CalculationResult;
  maxHistorySize : nat
}.

Definition initial : HistoryState := mkStore [] 10.

(** [Array.prototype.pop]: the array without its last element. *)
Definition pop {A : Type} (l : list A) : list A := removelast l.

Definition addCalculation (calculation : CalculationResult)
  (state : HistoryState) : HistoryState :=
  let newHistory := calculation :: history state in
  let newHistory :=
    if (maxHistorySize state <? List.length newHistory)%nat
    then pop newHistory else newHistory in
  mkStore newHistory (maxHistorySize state).

Definition clearHistory (state : HistoryState) : HistoryState :=
  mkStore [] (maxHistorySize state).

Definition getHistory (state : HistoryState) : list CalculationResult :=
  history state.

End HistoryStore.

(** * The calculator hook ([src/hooks/useVatCalculator.ts])

    One value of [Hook] holds what the hook keeps between events: the React
    state, the refs, the history store it writes to, and the timers the
    event loop still has to fire.  An event runs its handler on the state
    of the last render; the state updates the handler queued are then
    applied, and the effect re-runs [performCalculation] when one of its
    dependencies ([amount], [vatRate], [mode]) changed. *)

Module Hook.

Import Js VatMath.
Local Open Scope string_scope.

Definition DEFAULT_VAT_RATE : string := "7.5".

Record Hook : Set := mkHook {
  (* useState *)
  amount : string;
  vatRate : string;
  mode : CalculationMode;
  result : option CalculationResult;
  (* useRef *)
  lastSavedKeyRef : string;
  lastValidResultRef : option (CalculationResult * string);
  debounceTimerRef : option nat;
  latestAmountRef : string;
  latestVatRateRef : string;
  latestModeRef : CalculationMode;
  latestResultRef : option CalculationResult;
  (* the store, and the event loop's pending timers *)
  store : HistoryStore.HistoryState;
  timers : list nat;
  nextTimer : nat
}.

Definition initial (st : HistoryStore.HistoryState) : Hook :=
  mkHook "" DEFAULT_VAT_RATE Add None
         "" None None "" DEFAULT_VAT_RATE Add None
         st [] 1.

(** Field updates. *)
Definition set_amount v h := mkHook v (vatRate h) (mode h) (result h) (lastSavedKeyRef h) (lastValidResultRef h) (debounceTimerRef h) (latestAmountRef h) (latestVatRateRef h) (latestModeRef h) (latestResultRef h) (store h) (timers h) (nextTimer h).
Definition set_vatRate v h := mkHook (amount h) v (mode h) (result h) (lastSavedKeyRef h) (lastValidResultRef h) (debounceTimerRef h) (latestAmountRef h) (latestVatRateRef h) (latestModeRef h) (latestResultRef h) (store h) (timers h) (nextTimer h).
Definition set_mode v h := mkHook (amount h) (vatRate h) v (result h) (lastSavedKeyRef h) (lastValidResultRef h) (debounceTimerRef h) (latestAmountRef h) (latestVatRateRef h) (latestModeRef h) (latestResultRef h) (store h) (timers h) (nextTimer h).
Definition set_result v h := mkHook (amount h) (vatRate h) (mode h) v (lastSavedKeyRef h) (lastValidResultRef h) (debounceTimerRef h) (latestAmountRef h) (latestVatRateRef h) (latestModeRef h) (latestResultRef h) (store h) (timers h) (nextTimer h).
Definition set_lastSavedKeyRef v h := mkHook (amount h) (vatRate h) (mode h) (result h) v (lastValidResultRef h) (debounceTimerRef h) (latestAmountRef h) (latestVatRateRef h) (latestModeRef h) (latestResultRef h) (store h) (timers h) (nextTimer h).
Definition set_lastValidResultRef v h := mkHook (amount h) (vatRate h) (mode h) (result h) (lastSavedKeyRef h) v (debounceTimerRef h) (latestAmountRef h) (latestVatRateRef h) (latestModeRef h) (latestResultRef h) (store h) (timers h) (nextTimer h).
Definition set_debounceTimerRef v h := mkHook (amount h) (vatRate h) (mode h) (result h) (lastSavedKeyRef h) (lastValidResultRef h) v (latestAmountRef h) (latestVatRateRef h) (latestModeRef h) (latestResultRef h) (store h) (timers h) (nextTimer h).
Definition set_latestAmountRef v h := mkHook (amount h) (vatRate h) (mode h) (result h) (lastSavedKeyRef h) (lastValidResultRef h) (debounceTimerRef h) v (latestVatRateRef h) (latestModeRef h) (latestResultRef h) (store h) (timers h) (nextTimer h).
Definition set_latestVatRateRef v h := mkHook (amount h) (vatRate h) (mode h) (result h) (lastSavedKeyRef h) (lastValidResultRef h) (debounceTimerRef h) (latestAmountRef h) v (latestModeRef h) (latestResultRef h) (store h) (timers h) (nextTimer h).
Definition set_latestModeRef v h := mkHook (amount h) (vatRate h) (mode h) (result h) (lastSavedKeyRef h) (lastValidResultRef h) (debounceTimerRef h) (latestAmountRef h) (latestVatRateRef h) v (latestResultRef h) (store h) (timers h) (nextTimer h).
Definition set_latestResultRef v h := mkHook (amount h) (vatRate h) (mode h) (result h) (lastSavedKeyRef h) (lastValidResultRef h) (debounceTimerRef h) (latestAmountRef h) (latestVatRateRef h) (latestModeRef h) v (store h) (timers h) (nextTimer h).
Definition set_store v h := mkHook (amount h) (vatRate h) (mode h) (result h) (lastSavedKeyRef h) (lastValidResultRef h) (debounceTimerRef h) (latestAmountRef h) (latestVatRateRef h) (latestModeRef h) (latestResultRef h) v (timers h) (nextTimer h).
Definition set_timers v n h := mkHook (amount h) (vatRate h) (mode h) (result h) (lastSavedKeyRef h) (lastValidResultRef h) (debounceTimerRef h) (latestAmountRef h) (latestVatRateRef h) (latestModeRef h) (latestResultRef h) (store h) v n.

(** ** Timers of the event loop *)

(** [setTimeout]: a fresh handle, now pending. *)
Definition setTimeout (h : Hook) : nat * Hook :=
  (nextTimer h, set_timers (nextTimer h :: timers h) (S (nextTimer h)) h).

(** [clearTimeout]: the handle is no longer pending. *)
Definition clearTimeout (id : nat) (h : Hook) : Hook :=
  set_timers (List.filter (fun t => negb (Nat.eqb t id)) (timers h)) (nextTimer h) h.

(** The guard every handler uses:
    [if (ref.current) { clearTimeout(ref.current); ref.current = null }]. *)
Definition cancelDebounce (h : Hook) : Hook :=
  match debounceTimerRef h with
  | Some id => set_debounceTimerRef None (clearTimeout id h)
  | None => h
  end.

(** ** The functions of the hook *)

Definition mode_text (m : CalculationMode) : string :=
  match m with Add => "add" | Extract => "extract" end.

Definition createCalculationKey (calcResult : CalculationResult)
  (calcMode : CalculationMode) : string :=
  toFixed (priceExcludingVat calcResult) 2 ++ "-" ++
  Number_toString (VatMath.vatRate calcResult) ++ "-" ++
  mode_text calcMode ++ "-" ++
  toFixed (priceIncludingVat calcResult) 2.

(** Returns whether the calculation was added. *)
Definition saveCalculation (calcResult : CalculationResult) (key : string)
  (h : Hook) : bool * Hook :=
  if String.eqb (lastSavedKeyRef h) key then (false, h)
  else
    (true,
     set_lastSavedKeyRef key
       (set_store (HistoryStore.addCalculation calcResult (store h)) h)).

Definition performCalculation (now : float) (h : Hook) : Hook :=
  let amountNum := parseFloat (amount h) in
  let vatRateNum := parseFloat (vatRate h) in
  if isNaN amountNum || isNaN vatRateNum ||
     (amountNum <? 0)%float || (vatRateNum <? 0)%float ||
     (100 <? vatRateNum)%float ||
     String.eqb (amount h) "" || String.eqb (vatRate h) ""
  then set_result None h
  else
    match calculateVat now amountNum vatRateNum (mode h) with
    | Return calculationResult =>
        let h := set_result (Some calculationResult) h in
        let h := set_latestAmountRef (amount h) h in
        let h := set_latestVatRateRef (vatRate h) h in
        let h := set_latestModeRef (mode h) h in
        let h := set_latestResultRef (Some calculationResult) h in
        if (0 <? amountNum)%float then
          let key := createCalculationKey calculationResult (mode h) in
          set_lastValidResultRef (Some (calculationResult, key)) h
        else h
    | Throw _ =>
        set_latestResultRef None (set_result None h)
    end.

Definition saveToHistory (h : Hook) : Hook :=
  match result h with
  | None => h
  | Some r =>
      let amountNum := parseFloat (amount h) in
      if isNaN amountNum || (amountNum <=? 0)%float then h
      else
        let key := createCalculationKey r (mode h) in
        snd (saveCalculation r key h)
  end.

(** The callback [scheduleAutoSave] hands to [setTimeout]; it reads the
    refs when it runs. *)
Definition autoSaveCallback (h : Hook) : Hook :=
  match latestResultRef h with
  | None => set_debounceTimerRef None h
  | Some currentResult =>
      let amountNum := parseFloat (latestAmountRef h) in
      if isNaN amountNum || (amountNum <=? 0)%float then
        set_debounceTimerRef None h
      else
        let key := createCalculationKey currentResult (latestModeRef h) in
        if String.eqb (lastSavedKeyRef h) key then set_debounceTimerRef None h
        else set_debounceTimerRef None (snd (saveCalculation currentResult key h))
  end.

Definition scheduleAutoSave (h : Hook) : Hook :=
  let h :=
    match debounceTimerRef h with
    | Some id => clearTimeout id h
    | None => h
    end in
  let '(id, h) := setTimeout h in
  set_debounceTimerRef (Some id) h.

Definition handleAmountBlur (h : Hook) : Hook :=
  saveToHistory (cancelDebounce h).

(** [e.currentTarget.blur()] takes the focus off the amount field, whose
    [onBlur] is [handleAmountBlur]. *)
Definition handleAmountKeyDown (key : string) (h : Hook) : Hook :=
  if String.eqb key "Enter" then
    handleAmountBlur (saveToHistory (cancelDebounce h))
  else h.

Definition resetCalculator (h : Hook) : Hook :=
  let h := match result h with Some _ => saveToHistory h | None => h end in
  let h := cancelDebounce h in
  let h := set_amount "" h in
  let h := set_vatRate DEFAULT_VAT_RATE h in
  let h := set_mode Add h in
  let h := set_result None h in
  let h := set_latestAmountRef "" h in
  let h := set_latestVatRateRef DEFAULT_VAT_RATE h in
  let h := set_latestModeRef Add h in
  let h := set_latestResultRef None h in
  set_lastValidResultRef None h.

(** The pattern [/^\d*\.?\d*$/]. *)
Fixpoint all_digits (s : string) : bool :=
  match s with
  | EmptyString => true
  | String c s' => is_digit c && all_digits s'
  end.

Fixpoint numeric_text (s : string) : bool :=
  match s with
  | EmptyString => true
  | String c s' =>
      if is_digit c then numeric_text s'
      else Ascii.eqb c "."%char && all_digits s'
  end.

Definition handleSetAmount (value : string) (h : Hook) : Hook :=
  if String.eqb value "" || numeric_text value then
    let previousAmount := amount h in
    let h := set_latestAmountRef value h in
    let h :=
      if negb (String.eqb previousAmount "") && String.eqb value "" then
        let h :=
          match lastValidResultRef h with
          | Some (r, key) => snd (saveCalculation r key h)
          | None => h
          end in
        let h := cancelDebounce h in
        set_latestResultRef None (set_lastValidResultRef None h)
      else if negb (String.eqb value "") && negb (String.eqb value previousAmount) then
        scheduleAutoSave h
      else h in
    set_amount value h
  else h.

Definition handleSetVatRate (value : string) (h : Hook) : Hook :=
  if String.eqb value "" || numeric_text value then
    let previousRate := vatRate h in
    let h := set_latestVatRateRef value h in
    let h := set_vatRate value h in
    if negb (String.eqb (amount h) "") && negb (String.eqb value previousRate)
    then scheduleAutoSave h else h
  else h.

Definition mode_eqb (a b : CalculationMode) : bool :=
  match a, b with Add, Add | Extract, Extract => true | _, _ => false end.

Definition handleSetMode (newMode : CalculationMode) (h : Hook) : Hook :=
  let h :=
    if negb (mode_eqb newMode (mode h)) && negb (String.eqb (amount h) "")
    then saveToHistory h else h in
  set_mode newMode (set_latestModeRef newMode h).

(** ** Events *)

Inductive Event : Set :=
  | ChangeAmount (value : string)
  | ChangeVatRate (value : string)
  | SetMode (newMode : CalculationMode)
  | AmountBlur
  | AmountKeyDown (key : string)
  | Reset
  | TimerFires (id : nat).

Definition handler (ev : Event) (h : Hook) : Hook :=
  match ev with
  | ChangeAmount v => handleSetAmount v h
  | ChangeVatRate v => handleSetVatRate v h
  | SetMode m => handleSetMode m h
  | AmountBlur => handleAmountBlur h
  | AmountKeyDown k => handleAmountKeyDown k h
  | Reset => resetCalculator h
  | TimerFires id =>
      if List.existsb (Nat.eqb id) (timers h)
      then autoSaveCallback (clearTimeout id h) else h
  end.

(** One event: its handler, then the effect when a dependency of
    [performCalculation] changed. *)
Definition dispatch (now : float) (ev : Event) (h : Hook) : Hook :=
  let h' := handler ev h in
  if String.eqb (amount h') (amount h) && String.eqb (vatRate h') (vatRate h)
     && mode_eqb (mode h') (mode h)
  then h' else performCalculation now h'.

(** A run of events, each with the clock reading at its time. *)
Fixpoint run (evs : list (float * Event)) (h : Hook) : Hook :=
  match evs with
  | [] => h
  | (now, ev) :: evs' => run evs' (dispatch now ev h)
  end.

End Hook.

(** * CSV export ([src/utils/export.ts]) *)

Module CsvExport.

Import Js VatMath.
Local Open Scope string_scope.

Section Formatter.

(** [formatDateTime] ([src/utils/format.ts]) goes through
    [Intl.DateTimeFormat]: its text depends on the locale data of the host
    and is left open. *)
Variable formatDateTime : float -> string.

Definition headers : list string :=
  ["Date & Time"; "Mode"; "VAT Rate (%)"; "Price Excl. VAT"; "VAT Amount";
   "Price Incl. VAT"].

Definition row (item : CalculationResult) : list string :=
  [formatDateTime (timestamp item);
   match mode item with Add => "Add VAT" | Extract => "Extract VAT" end;
   toFixed (vatRate item) 2;
   toFixed (priceExcludingVat item) 2;
   toFixed (vatAmount item) 2;
   toFixed (priceIncludingVat item) 2].

(** [Array.prototype.join] is [String.concat]. *)
Definition convertToCSV (history : list CalculationResult) : string :=
  let rows := map row history in
  String.concat (String "010" "")
    (String.concat "," headers :: map (String.concat ",") rows).

End Formatter.

End CsvExport.

(** * Real-valued reading of binary64

    The properties of the arithmetic engine that quantify over all inputs
    are proved on the values the floats denote.  [SpecFloat] gives the
    operations on sign, mantissa and exponent; below are the value of a
    float as a real number and the error model of one rounding. *)

Local Open Scope R_scope.

(** Powers of two, with any integer exponent. *)
Definition bpow (e : Z) : R := powerRZ 2 e.

(** Position of a real [x] relative to the integer [m]: the meaning of the
    round and sticky bits. *)
Definition located (x : R) (m : Z) (l : location) : Prop :=
  match l with
  | loc_Exact => x = IZR m
  | loc_Inexact Lt => IZR m < x < IZR m + / 2
  | loc_Inexact Eq => x = IZR m + / 2
  | loc_Inexact Gt => IZR m + / 2 < x < IZR m + 1
  end.

(** A shift record keeps track of the non-negative real [x]. *)
Definition tracks (x : R) (mrs : shr_record) : Prop :=
  (0 <= shr_m mrs)%Z /\ located x (shr_m mrs) (loc_of_shr_record mrs).

(** The real number a float denotes (0 for the zeros and, by convention,
    for the non-finite values). *)
Definition SF2R (x : spec_float) : R :=
  match x with
  | S754_finite s m e => IZR (cond_Zopp s (Zpos m)) * bpow e
  | _ => 0
  end.

(** Zeros and finite numbers, as opposed to infinities and NaN. *)
Definition finite (x : spec_float) : Prop :=
  match x with
  | S754_zero _ | S754_finite _ _ _ => True
  | _ => False
  end.

(** Unit roundoff and underflow threshold of binary64. *)
Definition u_rn : R := bpow (-53).
Definition eta_rn : R := bpow (-1075).

(** [r] is what rounding the real [w] gives: never NaN; an infinity only
    for a large [w] of that sign; otherwise within the error model of [w],
    a non-zero result having the sign of [w]. *)
Definition rounded (w : R) (r : spec_float) : Prop :=
  match r with
  | S754_nan => False
  | S754_infinity s => bpow 970 <= Rabs w /\ (if s then w < 0 else 0 < w)
  | S754_zero _ => Rabs (0 - w) <= u_rn * Rabs w + eta_rn
  | S754_finite s m e =>
      Rabs (SF2R r - w) <= u_rn * Rabs w + eta_rn /\ (if s then w < 0 else 0 < w)
  end.

(** The sign bit as a factor. *)
Definition sgnR (s : bool) : R := if s then -1 else 1.

(** Zeros of either sign, positive numbers and +infinity. *)
Definition nonneg (x : spec_float) : Prop :=
  match x with
  | S754_nan => False
  | S754_zero _ => True
  | S754_infinity s | S754_finite s _ _ => s = false
  end.


(** The same notions on primitive floats. *)
Definition F2R (x : float) : R := SF2R (Prim2SF x).
Definition is_finite (x : float) : Prop := finite (Prim2SF x).
Definition is_nonneg (x : float) : Prop := nonneg (Prim2SF x).

(** [f] is the float of [K] cents: an integer-valued float divided by
    100. *)
Definition is_cents (K : Z) (f : float) : Prop :=
  exists X : float, is_finite X /\ F2R X = IZR K /\ f = (X / 100)%float.

Local Close Scope R_scope.

(** * Notions used to state the properties of the hook *)

(** What the validation of [performCalculation] rejects. *)
Definition rejected (amount vatRate : string) : Prop :=
  amount = ""%string \/ vatRate = ""%string \/
  Js.isNaN (Js.parseFloat amount) = true \/
  Js.isNaN (Js.parseFloat vatRate) = true \/
  (Js.parseFloat amount <? 0)%float = true \/
  (Js.parseFloat vatRate <? 0)%float = true \/
  (100 <? Js.parseFloat vatRate)%float = true.

(** The amount "1" followed by 309 zeros: accepted by the input pattern,
    read by [parseFloat] as Infinity. *)
Definition huge_amount : string := ("1" ++ Js.zeros 309)%string.

(** At most one timer is pending, and it is the one [debounceTimerRef]
    holds. *)
Definition timer_inv (h : Hook.Hook) : Prop :=
  Hook.timers h
  = match Hook.debounceTimerRef h with Some id => [id] | None => [] end.

(** The timer side of the state. *)
Definition timer_state (h : Hook.Hook) : option nat * list nat * nat :=
  (Hook.debounceTimerRef h, Hook.timers h, Hook.nextTimer h).

(** What a commit changes: the store and the key of the last commit. *)
Definition ledger (h : Hook.Hook) : HistoryStore.HistoryState * string :=
  (Hook.store h, Hook.lastSavedKeyRef h).

(** [h'] is [h] after at most one commit: nothing committed, or one result
    prepended to the store under a key different from the last one. *)
Definition at_most_one_commit (h h' : Hook.Hook) : Prop :=
  ledger h' = ledger h \/
  exists r key,
    Hook.store h' = HistoryStore.addCalculation r (Hook.store h) /\
    Hook.lastSavedKeyRef h' = key /\ key <> Hook.lastSavedKeyRef h.

(** What [saveToHistory] would commit in [h]: the displayed result under
    the current mode, when the amount parses to a number above zero and the
    key differs from the last one saved. *)
Definition pending_commit (h : Hook.Hook)
  : option (VatMath.CalculationResult * string) :=
  match Hook.result h with
  | Some r =>
      if Js.isNaN (Js.parseFloat (Hook.amount h))
         || (Js.parseFloat (Hook.amount h) <=? 0)%float
      then None
      else if String.eqb (Hook.lastSavedKeyRef h)
                (Hook.createCalculationKey r (Hook.mode h))
      then None
      else Some (r, Hook.createCalculationKey r (Hook.mode h))
  | None => None
  end.

(** The amount and rate fields hold texts the input pattern accepts. *)
Definition fields_numeric (h : Hook.Hook) : Prop :=
  Hook.numeric_text (Hook.amount h) = true /\
  Hook.numeric_text (Hook.vatRate h) = true.

(** How many times a character occurs in a text. *)
Fixpoint count_char (c : ascii) (s : string) : nat :=
  match s with
  | EmptyString => 0
  | String a s' => (if Ascii.eqb a c then 1 else 0) + count_char c s'
  end.

(** The characters the text of a number is made of. *)
Definition number_char (c : ascii) : bool :=
  Js.is_digit c || existsb (Ascii.eqb c) (list_ascii_of_string ".-+eNaInfity"%string).

Fixpoint number_text (s : string) : bool :=
  match s with
  | EmptyString => true
  | String c s' => number_char c && number_text s'
  end.

(** Closed facts about concrete inputs are settled by evaluation. *)
Ltac conj_split := repeat match goal with |- _ /\ _ => split end.
Ltac by_computation := intros; conj_split; vm_compute; reflexivity.

(** * Powers of two *)

Local Open Scope R_scope.

Lemma bpow_pos e : 0 < bpow e.
Proof. apply powerRZ_lt; lra. Qed.

Lemma bpow_add a b : bpow (a + b) = bpow a * bpow b.
Proof. apply powerRZ_add; lra. Qed.

Lemma bpow_0 : bpow 0 = 1.
Proof. reflexivity. Qed.

Lemma bpow_1 : bpow 1 = 2.
Proof. unfold bpow; simpl; lra. Qed.

Lemma bpow_opp e : bpow (- e) = / bpow e.
Proof.
  assert (H := bpow_add e (- e)). replace (e + - e)%Z with 0%Z in H by lia.
  rewrite bpow_0 in H. pose proof (bpow_pos e).
  apply (Rmult_eq_reg_l (bpow e)); [|lra]. rewrite <- H. field. lra.
Qed.

Lemma bpow_sub a b : bpow (a - b) = bpow a / bpow b.
Proof. unfold Z.sub, Rdiv. now rewrite bpow_add, bpow_opp. Qed.

Lemma bpow_succ e : bpow (e + 1) = 2 * bpow e.
Proof. rewrite bpow_add, bpow_1; ring. Qed.

Lemma bpow_IZR e : (0 <= e)%Z -> bpow e = IZR (2 ^ e).
Proof.
  intros He. rewrite <- (Z2Nat.id e) by exact He.
  generalize (Z.to_nat e). clear. intros n. unfold bpow.
  rewrite <- pow_powerRZ. now rewrite <- pow_IZR.
Qed.

Lemma bpow_ge_1 e : (0 <= e)%Z -> 1 <= bpow e.
Proof.
  intros He. rewrite bpow_IZR by exact He. apply IZR_le.
  assert (0 < 2 ^ e)%Z by (apply Z.pow_pos_nonneg; lia). lia.
Qed.

Lemma bpow_le a b : (a <= b)%Z -> bpow a <= bpow b.
Proof.
  intros H. replace b with (a + (b - a))%Z by lia. rewrite bpow_add.
  pose proof (bpow_ge_1 (b - a) ltac:(lia)). pose proof (bpow_pos a). nra.
Qed.

Lemma bpow_lt a b : (a < b)%Z -> bpow a < bpow b.
Proof.
  intros H. replace b with (a + 1 + (b - a - 1))%Z by lia.
  rewrite bpow_add, bpow_succ.
  assert (1 <= bpow (b - a - 1)) by (apply bpow_ge_1; lia).
  pose proof (bpow_pos a). nra.
Qed.

Lemma bpow_lt_inv a b : bpow a < bpow b -> (a < b)%Z.
Proof.
  intros H. destruct (Z_lt_le_dec a b) as [L|L]; [exact L|].
  apply bpow_le in L. lra.
Qed.

Lemma bpow_le_inv a b : bpow a <= bpow b -> (a <= b)%Z.
Proof.
  intros H. destruct (Z_lt_le_dec b a) as [L|L]; [|exact L].
  apply bpow_lt in L. lra.
Qed.

Lemma IZR_xO p : IZR (Zpos p~0) = 2 * IZR (Zpos p).
Proof. rewrite Pos2Z.inj_xO, mult_IZR. reflexivity. Qed.

Lemma IZR_xI p : IZR (Zpos p~1) = 2 * IZR (Zpos p) + 1.
Proof. rewrite Pos2Z.inj_xI, plus_IZR, mult_IZR. reflexivity. Qed.

Lemma shr_1_tracks x mrs : tracks x mrs -> tracks (x / 2) (shr_1 mrs).
Proof.
  destruct mrs as [m r s]. unfold tracks.
  cbn [shr_m loc_of_shr_record]. intros [Hm Hl].
  destruct m as [|p|p]; [| |lia].
  - destruct r, s; cbn [shr_1 orb shr_m loc_of_shr_record located] in *;
      (split; [lia|lra]).
  - destruct p as [p|p|]; destruct r, s;
      cbn [shr_1 orb shr_m loc_of_shr_record located] in *;
      try rewrite (IZR_xO p) in Hl; try rewrite (IZR_xI p) in Hl;
      (split; [lia|lra]).
Qed.

Lemma shr_1_m mrs : (0 <= shr_m mrs)%Z -> shr_m (shr_1 mrs) = (shr_m mrs / 2)%Z.
Proof.
  destruct mrs as [m r s]. cbn [shr_m]. intros Hm.
  destruct m as [|p|p]; [reflexivity| |lia].
  destruct p as [p|p|]; cbn [shr_1 shr_m].
  - apply Z.div_unique with 1%Z; lia.
  - apply Z.div_unique with 0%Z; lia.
  - reflexivity.
Qed.

Lemma Zpow2_xO p : (2 ^ Zpos p~0 = 2 ^ Zpos p * 2 ^ Zpos p)%Z.
Proof. rewrite <- Z.pow_add_r by lia. f_equal. lia. Qed.

Lemma Zpow2_xI p : (2 ^ Zpos p~1 = 2 * (2 ^ Zpos p * 2 ^ Zpos p))%Z.
Proof.
  rewrite <- Z.pow_add_r, <- Z.pow_succ_r by lia. f_equal. lia.
Qed.

Lemma bpow_xO p : bpow (Zpos p~0) = bpow (Zpos p) * bpow (Zpos p).
Proof. rewrite <- bpow_add. f_equal. lia. Qed.

Lemma bpow_xI p : bpow (Zpos p~1) = 2 * (bpow (Zpos p) * bpow (Zpos p)).
Proof.
  rewrite <- bpow_add. replace (Zpos p~1) with (Zpos p + Zpos p + 1)%Z by lia.
  apply bpow_succ.
Qed.

Lemma iter_pos_shr_1 p : forall x mrs, tracks x mrs ->
  tracks (x / bpow (Zpos p)) (iter_pos shr_1 p mrs) /\
  shr_m (iter_pos shr_1 p mrs) = (shr_m mrs / 2 ^ Zpos p)%Z.
Proof.
  induction p as [p IH|p IH|]; intros x mrs H; cbn [iter_pos].
  - pose proof (shr_1_tracks _ _ H) as H1.
    destruct (IH _ _ H1) as [H2 E2]. destruct (IH _ _ H2) as [H3 E3].
    assert (0 < 2 ^ Zpos p)%Z by (apply Z.pow_pos_nonneg; lia).
    split.
    + replace (x / bpow (Zpos p~1)) with (x / 2 / bpow (Zpos p) / bpow (Zpos p)); [exact H3|].
      rewrite bpow_xI. pose proof (bpow_pos (Zpos p)). field. lra.
    + rewrite E3, E2, shr_1_m by apply H.
      rewrite !Z.div_div by lia. now rewrite Zpow2_xI, Z.mul_assoc.
  - destruct (IH _ _ H) as [H2 E2]. destruct (IH _ _ H2) as [H3 E3].
    assert (0 < 2 ^ Zpos p)%Z by (apply Z.pow_pos_nonneg; lia).
    split.
    + replace (x / bpow (Zpos p~0)) with (x / bpow (Zpos p) / bpow (Zpos p)); [exact H3|].
      rewrite bpow_xO. pose proof (bpow_pos (Zpos p)). field. lra.
    + rewrite E3, E2. rewrite Z.div_div by lia. now rewrite Zpow2_xO.
  - split.
    + rewrite bpow_1. now apply shr_1_tracks.
    + apply shr_1_m, H.
Qed.

(** [shr] by [n] places: the record keeps tracking the same real, read at
    the new exponent. *)
Lemma shr_tracks v mrs e n :
  tracks (v / bpow e) mrs ->
  let '(mrs', e') := shr mrs e n in
  e' = Z.max e (e + n) /\ tracks (v / bpow e') mrs' /\
  shr_m mrs' = (shr_m mrs / 2 ^ (e' - e))%Z.
Proof.
  intros H. destruct n as [|p|p]; cbn [shr].
  - split; [lia|]. split; [exact H|]. rewrite Z.sub_diag, Z.pow_0_r. now rewrite Z.div_1_r.
  - destruct (iter_pos_shr_1 p _ _ H) as [H1 E1].
    split; [lia|]. split.
    + rewrite bpow_add. pose proof (bpow_pos e). pose proof (bpow_pos (Zpos p)).
      replace (v / (bpow e * bpow (Zpos p))) with (v / bpow e / bpow (Zpos p)) by (field; lra).
      exact H1.
    + rewrite E1. f_equal. f_equal. lia.
  - split; [lia|]. split; [exact H|]. rewrite Z.sub_diag, Z.pow_0_r. now rewrite Z.div_1_r.
Qed.

Lemma digits2_pos_bounds m :
  (2 ^ (Zpos (digits2_pos m) - 1) <= Zpos m < 2 ^ Zpos (digits2_pos m))%Z.
Proof.
  induction m as [m IH|m IH|]; cbn [digits2_pos].
  - rewrite Pos2Z.inj_succ, (Pos2Z.inj_xI m).
    replace (Z.succ (Zpos (digits2_pos m)) - 1)%Z with (Z.succ (Zpos (digits2_pos m) - 1))%Z by lia.
    rewrite !Z.pow_succ_r by lia.
    revert IH. generalize (2 ^ (Zpos (digits2_pos m) - 1))%Z (2 ^ Zpos (digits2_pos m))%Z. lia.
  - rewrite Pos2Z.inj_succ, (Pos2Z.inj_xO m).
    replace (Z.succ (Zpos (digits2_pos m)) - 1)%Z with (Z.succ (Zpos (digits2_pos m) - 1))%Z by lia.
    rewrite !Z.pow_succ_r by lia.
    revert IH. generalize (2 ^ (Zpos (digits2_pos m) - 1))%Z (2 ^ Zpos (digits2_pos m))%Z. lia.
  - cbn. lia.
Qed.

Lemma round_nearest_even_near x m l :
  located x m l ->
  (m <= round_nearest_even m l <= m + 1)%Z /\
  Rabs (IZR (round_nearest_even m l) - x) <= / 2.
Proof.
  intros H. destruct l as [|[| |]]; simpl in *.
  - split; [lia|]. subst x. rewrite Rminus_diag, Rabs_R0. lra.
  - destruct (Z.even m); (split; [lia|]); subst x; rewrite ?plus_IZR;
      unfold Rabs; destruct Rcase_abs; lra.
  - split; [lia|]. unfold Rabs; destruct Rcase_abs; lra.
  - split; [lia|]. rewrite plus_IZR. unfold Rabs; destruct Rcase_abs; lra.
Qed.

Lemma fexp_eq x : fexp prec emax x = Z.max (x - 53) (-1074).
Proof. reflexivity. Qed.

Lemma Zdigits2_bounds m : (0 <= m)%Z -> (m < 2 ^ Zdigits2 m)%Z.
Proof.
  destruct m as [|p|p]; intros H; [reflexivity| |lia].
  apply digits2_pos_bounds.
Qed.

Lemma Zdigits2_nonneg m : (0 <= Zdigits2 m)%Z.
Proof. destruct m; cbn; lia. Qed.

Lemma Zdigits2_le m d : (0 <= m < 2 ^ d)%Z -> (0 <= d)%Z -> (Zdigits2 m <= d)%Z.
Proof.
  intros [H0 H1] Hd. destruct m as [|p|p]; [cbn; lia| |lia].
  cbn [Zdigits2]. pose proof (digits2_pos_bounds p) as [L _].
  destruct (Z_le_gt_dec (Zpos (digits2_pos p)) d) as [?|G]; [assumption|exfalso].
  assert (2 ^ d <= 2 ^ (Zpos (digits2_pos p) - 1))%Z by (apply Z.pow_le_mono_r; lia).
  lia.
Qed.

Lemma tracks_of_loc x m l :
  (0 <= m)%Z -> located x m l -> tracks x (shr_record_of_loc m l).
Proof. intros Hm Hl. split; destruct l as [|[| |]]; assumption. Qed.

Lemma located_nonneg x m l : (0 <= m)%Z -> located x m l -> 0 <= x.
Proof.
  intros Hm H. apply IZR_le in Hm. destruct l as [|[| |]]; cbn in H; lra.
Qed.

(** What [binary_round_aux] returns for the non-negative real [v] read as
    [mx], located by [lx], at exponent [ex]: with [E] the exponent the
    format gives to [v], an integer [k] within a half of [v / 2^E], and the
    float of magnitude [k * 2^E] (zero when [k = 0], infinite when the
    exponent is out of range). *)
Lemma binary_round_aux_spec s mx ex lx v :
  (0 <= mx)%Z -> located (v / bpow ex) mx lx ->
  let E := Z.max ex (fexp prec emax (Zdigits2 mx + ex)) in
  exists k : Z,
    (mx / 2 ^ (E - ex) <= k <= mx / 2 ^ (E - ex) + 1)%Z /\
    Rabs (IZR k - v / bpow E) <= / 2 /\
    (lx = loc_Exact -> E = ex -> k = mx) /\
    match binary_round_aux prec emax s mx ex lx with
    | S754_zero s' => s' = s /\ k = 0%Z
    | S754_finite s' m e =>
        s' = s /\ IZR (Zpos m) * bpow e = IZR k * bpow E /\ (E <= e <= 971)%Z
    | S754_infinity s' => s' = s /\ (971 <= E)%Z /\ (0 < k)%Z
    | S754_nan => False
    end.
Proof.
  intros Hm Hl E. unfold binary_round_aux, shr_fexp.
  pose proof (shr_tracks v _ ex (fexp prec emax (Zdigits2 mx + ex) - ex)
                (tracks_of_loc _ _ _ Hm Hl)) as H1.
  destruct (shr (shr_record_of_loc mx lx) ex _) as [mrs' e'] eqn:Hshr.
  destruct H1 as [He' [[Hm' Hl'] Em']].
  assert (EE : e' = E) by (unfold E; lia). clear He'. subst e'.
  replace (shr_m (shr_record_of_loc mx lx)) with mx in Em' by (now destruct lx as [|[| |]]).
  destruct (round_nearest_even_near _ _ _ Hl') as [Hk Hnear].
  set (k := round_nearest_even (shr_m mrs') (loc_of_shr_record mrs')) in *.
  exists k.
  assert (Hd := Zdigits2_bounds mx Hm).
  assert (HdE : (Zdigits2 mx - (E - ex) <= 53)%Z).
  { unfold E. rewrite fexp_eq. lia. }
  assert (HEmin : (-1074 <= E)%Z) by (unfold E; rewrite fexp_eq; lia).
  assert (HEex : (0 <= E - ex)%Z) by (unfold E; lia).
  assert (Hm53 : (shr_m mrs' < 2 ^ 53)%Z).
  { rewrite Em'. apply Z.div_lt_upper_bound; [apply Z.pow_pos_nonneg; lia|].
    apply Z.lt_le_trans with (1 := Hd).
    rewrite <- Z.pow_add_r by lia. apply Z.pow_le_mono_r; lia. }
  split; [rewrite <- Em'; exact Hk|]. split; [exact Hnear|]. split.
  { intros -> EQ. unfold k.
    assert (Hn : (fexp prec emax (Zdigits2 mx + ex) - ex <= 0)%Z) by (unfold E in EQ; lia).
    assert (Hrec : mrs' = shr_record_of_loc mx loc_Exact).
    { revert Hshr. destruct (fexp prec emax (Zdigits2 mx + ex) - ex)%Z;
        cbn [shr]; try lia; congruence. }
    rewrite Hrec. reflexivity. }
  (* the second normalisation *)
  destruct (Z_lt_le_dec k (2 ^ 53)) as [Hk53|Hk53].
  - assert (Hdk : (Zdigits2 k <= 53)%Z) by (apply Zdigits2_le; lia).
    assert (Hn2 : (fexp prec emax (Zdigits2 k + E) - E <= 0)%Z) by (rewrite fexp_eq; lia).
    replace (shr (shr_record_of_loc k loc_Exact) E (fexp prec emax (Zdigits2 k + E) - E))
      with (shr_record_of_loc k loc_Exact, E)
      by (destruct (fexp prec emax (Zdigits2 k + E) - E)%Z; cbn [shr]; try reflexivity; lia).
    cbn [shr_record_of_loc shr_m].
    destruct k as [|p|p]; [split; reflexivity| |lia].
    destruct (Z.leb_spec E (emax - prec)) as [L|L]; change (emax - prec)%Z with 971%Z in L.
    + split; [reflexivity|]. split; [reflexivity|lia].
    + split; [reflexivity|]. split; lia.
  - assert (Ek : k = (2 ^ 53)%Z) by lia.
    rewrite Ek.
    replace (fexp prec emax (Zdigits2 (2 ^ 53) + E) - E)%Z with 1%Z
      by (rewrite fexp_eq; change (Zdigits2 (2 ^ 53)) with 54%Z; lia).
    cbn -[bpow Z.add Z.leb].
    destruct (Z.leb_spec (E + 1) (emax - prec)) as [L|L]; change (emax - prec)%Z with 971%Z in L.
    + split; [reflexivity|]. split; [|lia].
      rewrite bpow_succ. change 4503599627370496%positive with (Z.to_pos (2 ^ 52)).
      cbn. lra.
    + split; [reflexivity|]. split; lia.
Qed.

(** ** Real value of a float, and the rounding error model *)

Lemma u_pos : 0 < u_rn. Proof. apply bpow_pos. Qed.
Lemma eta_pos : 0 < eta_rn. Proof. apply bpow_pos. Qed.

Lemma rounded_error w r :
  rounded w r -> finite r -> Rabs (SF2R r - w) <= u_rn * Rabs w + eta_rn.
Proof. destruct r; cbn [rounded SF2R finite]; intros H F; try contradiction; [exact H|apply H]. Qed.

Lemma rounded_finite w r : rounded w r -> Rabs w < bpow 970 -> finite r.
Proof. destruct r; cbn [rounded finite]; intros H L; try exact I; [lra|contradiction]. Qed.

Lemma rounded_exact r : finite r -> rounded (SF2R r) r.
Proof.
  destruct r as [s|s| |s m e]; cbn [rounded SF2R finite]; intros F; try contradiction.
  - rewrite Rminus_diag, Rabs_R0. pose proof u_pos; pose proof eta_pos. lra.
  - rewrite Rminus_diag. pose proof (bpow_pos e). pose proof u_pos; pose proof eta_pos.
    assert (0 < IZR (Zpos m)) by (apply IZR_lt; lia).
    split.
    + rewrite Rabs_R0. pose proof (Rabs_pos (IZR (cond_Zopp s (Zpos m)) * bpow e)). nra.
    + destruct s; cbn [cond_Zopp]; [rewrite opp_IZR|]; nra.
Qed.

Lemma located_exact_inv x m : located x m loc_Exact -> x = IZR m.
Proof. exact (fun H => H). Qed.

Lemma located_lower x m l : located x m l -> IZR m <= x.
Proof. destruct l as [|[| |]]; cbn [located]; lra. Qed.

Lemma sgnR_cond s m : IZR (cond_Zopp s m) = sgnR s * IZR m.
Proof. destruct s; cbn [cond_Zopp sgnR]; [rewrite opp_IZR|]; lra. Qed.

(** The core: rounding the non-negative [v], given with its location, to the
    float of sign [s]. *)
Lemma binary_round_aux_rounded s mx ex lx v :
  (0 <= mx)%Z -> located (v / bpow ex) mx lx -> 0 < v ->
  lx = loc_Exact \/ bpow (ex - 1) <= u_rn * v + eta_rn ->
  rounded (sgnR s * v) (binary_round_aux prec emax s mx ex lx).
Proof.
  intros Hm Hl Hv Hex.
  destruct (binary_round_aux_spec s mx ex lx v Hm Hl) as (k & Hk & Hnear & Hexact & Hres).
  set (E := Z.max ex (fexp prec emax (Zdigits2 mx + ex))) in *.
  pose proof (bpow_pos E) as HE. pose proof (bpow_pos ex) as Hbex.
  pose proof u_pos as Hu. pose proof eta_pos as Heta.
  assert (Habs : Rabs (sgnR s * v) = v).
  { destruct s; cbn [sgnR]; unfold Rabs; destruct Rcase_abs; lra. }
  assert (Herr : Rabs (IZR k * bpow E - v) <= u_rn * v + eta_rn).
  { assert (Hhalf : Rabs (IZR k * bpow E - v) <= bpow (E - 1)).
    { replace (IZR k * bpow E - v) with ((IZR k - v / bpow E) * bpow E) by (field; lra).
      rewrite Rabs_mult, (Rabs_pos_eq (bpow E)) by lra.
      replace (bpow (E - 1)) with (/ 2 * bpow E)
        by (replace E with (E - 1 + 1)%Z at 1 by lia; rewrite bpow_succ; lra).
      apply Rmult_le_compat_r; lra. }
    destruct (Z.eq_dec E ex) as [EQ|NE].
    - destruct Hex as [->|Hex].
      + rewrite (Hexact eq_refl EQ). cbn [located] in Hl. rewrite EQ.
        replace (IZR mx * bpow ex - v) with 0.
        * rewrite Rabs_R0. nra.
        * rewrite <- Hl. field. lra.
      + rewrite <- EQ in Hex. lra.
    - assert (HEf : E = fexp prec emax (Zdigits2 mx + ex)) by (unfold E in *; lia).
      rewrite fexp_eq in HEf.
      destruct (Z.eq_dec E (-1074)) as [EQ|NE'].
      + replace (bpow (E - 1)) with eta_rn in Hhalf by (rewrite EQ; reflexivity). nra.
      + assert (HEd : E = (Zdigits2 mx + ex - 53)%Z) by lia.
        destruct mx as [|p|p]; [cbn in HEd; unfold E in *; lia| |lia].
        pose proof (digits2_pos_bounds p) as [Hlow _].
        cbn [Zdigits2] in HEd.
        assert (Hv' : bpow (Zpos (digits2_pos p) - 1 + ex) <= v).
        { rewrite bpow_add. apply located_lower in Hl.
          rewrite bpow_IZR by lia. apply IZR_le in Hlow.
          apply Rle_trans with (IZR (Zpos p) * bpow ex).
          - apply Rmult_le_compat_r; lra.
          - apply (Rmult_le_compat_r (bpow ex)) in Hl; [|lra].
            replace (v / bpow ex * bpow ex) with v in Hl by (field; lra). exact Hl. }
        replace (E - 1)%Z with (-53 + (Zpos (digits2_pos p) - 1 + ex))%Z in Hhalf by lia.
        rewrite bpow_add in Hhalf. fold u_rn in Hhalf. nra. }
  assert (Hsign : if s then sgnR s * v < 0 else 0 < sgnR s * v)
    by (destruct s; cbn [sgnR]; lra).
  destruct (binary_round_aux prec emax s mx ex lx) as [s'|s'| |s' m e]; cbn [rounded].
  - destruct Hres as [-> ->]. rewrite Habs.
    replace (0 - sgnR s * v) with (- (sgnR s * v)) by ring.
    rewrite Rabs_Ropp, Habs.
    replace (IZR 0 * bpow E - v) with (- v) in Herr by ring.
    rewrite Rabs_Ropp, Rabs_pos_eq in Herr; lra.
  - destruct Hres as (-> & HE971 & Hkpos). rewrite Habs. split; [|exact Hsign].
    assert (1 <= IZR k) by (apply IZR_le; lia).
    assert (Hvk : / 2 <= v / bpow E).
    { unfold Rabs in Hnear. destruct Rcase_abs in Hnear; lra. }
    apply (Rmult_le_compat_r (bpow E)) in Hvk; [|lra].
    replace (v / bpow E * bpow E) with v in Hvk by (field; lra).
    apply Rle_trans with (2 := Hvk).
    replace (/ 2 * bpow E) with (bpow (E - 1))
      by (replace E with (E - 1 + 1)%Z at 2 by lia; rewrite bpow_succ; lra).
    apply bpow_le. lia.
  - contradiction.
  - destruct Hres as (-> & Hval & _). rewrite Habs. split; [|exact Hsign].
    cbn [SF2R]. rewrite sgnR_cond, Rmult_assoc, Hval.
    replace (sgnR s * (IZR k * bpow E) - sgnR s * v) with (sgnR s * (IZR k * bpow E - v)) by ring.
    rewrite Rabs_mult. replace (Rabs (sgnR s)) with 1; [lra|].
    destruct s; cbn [sgnR]; unfold Rabs; destruct Rcase_abs; lra.
Qed.

(** ** The operations *)

Lemma iter_xO_value m d : Zpos (Pos.iter xO m d) = (Zpos m * 2 ^ Zpos d)%Z.
Proof.
  induction d as [|d IH] using Pos.peano_ind.
  - cbn [Pos.iter]. rewrite Pos2Z.inj_xO. change (2 ^ 1)%Z with 2%Z. lia.
  - rewrite Pos.iter_succ, Pos2Z.inj_xO, IH, Pos2Z.inj_succ, Z.pow_succ_r by lia. ring.
Qed.

Lemma shl_align_value m e e' :
  (Zpos (fst (shl_align m e e')) = Zpos m * 2 ^ (e - snd (shl_align m e e')))%Z /\
  snd (shl_align m e e') = Z.min e e'.
Proof.
  unfold shl_align. destruct (e' - e)%Z as [|d|d] eqn:Hd; cbn [fst snd].
  - replace (e - e)%Z with 0%Z by lia. rewrite Z.pow_0_r. lia.
  - replace (e - e)%Z with 0%Z by lia. rewrite Z.pow_0_r. lia.
  - rewrite iter_xO_value. replace (e - e')%Z with (Zpos d) by lia. lia.
Qed.

Lemma shl_align_real m e e' :
  IZR (Zpos (fst (shl_align m e e'))) * bpow (snd (shl_align m e e'))
  = IZR (Zpos m) * bpow e.
Proof.
  destruct (shl_align_value m e e') as [Hm He]. rewrite Hm, mult_IZR.
  rewrite <- bpow_IZR by lia. rewrite Rmult_assoc, <- bpow_add. f_equal. f_equal. lia.
Qed.

Lemma binary_round_rounded s m e :
  rounded (sgnR s * (IZR (Zpos m) * bpow e)) (binary_round prec emax s m e).
Proof.
  unfold binary_round.
  pose proof (shl_align_real m e (fexp prec emax (Zpos (digits2_pos m) + e))) as Hv.
  destruct (shl_align m e _) as [mz ez]. cbn [fst snd] in Hv. rewrite <- Hv.
  pose proof (bpow_pos ez). assert (0 < IZR (Zpos mz)) by (apply IZR_lt; lia).
  apply binary_round_aux_rounded; [lia| |nra|now left].
  cbn [located]. field. lra.
Qed.

Lemma binary_normalize_rounded m e :
  rounded (IZR m * bpow e) (binary_normalize prec emax m e false).
Proof.
  destruct m as [|p|p]; cbn [binary_normalize].
  - replace (IZR 0 * bpow e) with (SF2R (S754_zero false)) by (cbn [SF2R]; lra).
    now apply rounded_exact.
  - replace (IZR (Zpos p) * bpow e) with (sgnR false * (IZR (Zpos p) * bpow e))
      by (cbn [sgnR]; lra).
    apply binary_round_rounded.
  - replace (IZR (Zneg p) * bpow e) with (sgnR true * (IZR (Zpos p) * bpow e)).
    + apply binary_round_rounded.
    + cbn [sgnR]. change (Zneg p) with (- Zpos p)%Z. rewrite opp_IZR. lra.
Qed.

Lemma SF2R_finite_eq s m e :
  SF2R (S754_finite s m e) = sgnR s * (IZR (Zpos m) * bpow e).
Proof. cbn [SF2R]. rewrite sgnR_cond. ring. Qed.

Lemma aligned_sum sx mx ex sy my ey (op : Z -> Z -> Z) (rop : R -> R -> R) :
  (forall a b, IZR (op a b) = rop (IZR a) (IZR b)) ->
  (forall a b c, rop a b * c = rop (a * c) (b * c)) ->
  let ez := Z.min ex ey in
  IZR (op (cond_Zopp sx (Zpos (fst (shl_align mx ex ez))))
          (cond_Zopp sy (Zpos (fst (shl_align my ey ez))))) * bpow ez
  = rop (SF2R (S754_finite sx mx ex)) (SF2R (S754_finite sy my ey)).
Proof.
  intros Hop Hdist ez. rewrite Hop, Hdist, !sgnR_cond, !SF2R_finite_eq.
  pose proof (shl_align_real mx ex ez) as Hx. pose proof (shl_align_real my ey ez) as Hy.
  destruct (shl_align_value mx ex ez) as [_ Hsx]. destruct (shl_align_value my ey ez) as [_ Hsy].
  replace (snd (shl_align mx ex ez)) with ez in Hx by (unfold ez in *; lia).
  replace (snd (shl_align my ey ez)) with ez in Hy by (unfold ez in *; lia).
  rewrite !Rmult_assoc, Hx, Hy. reflexivity.
Qed.

Lemma SFadd_rounded x y :
  finite x -> finite y -> rounded (SF2R x + SF2R y) (SFadd prec emax x y).
Proof.
  destruct x as [sx|sx| |sx mx ex], y as [sy|sy| |sy my ey]; cbn [finite]; intros Fx Fy;
    try contradiction.
  - replace (SF2R (S754_zero sx) + SF2R (S754_zero sy)) with 0 by (cbn [SF2R]; lra).
    unfold SFadd.
    destruct sx, sy; apply (rounded_exact (S754_zero _) I).
  - replace (SF2R (S754_zero sx) + SF2R (S754_finite sy my ey))
      with (SF2R (S754_finite sy my ey)) by (cbn [SF2R]; lra).
    now apply rounded_exact.
  - replace (SF2R (S754_finite sx mx ex) + SF2R (S754_zero sy))
      with (SF2R (S754_finite sx mx ex)) by (cbn [SF2R]; lra).
    now apply rounded_exact.
  - unfold SFadd.
    rewrite <- (aligned_sum sx mx ex sy my ey Z.add Rplus plus_IZR Rmult_plus_distr_r).
    apply binary_normalize_rounded.
Qed.

Lemma SFsub_rounded x y :
  finite x -> finite y -> rounded (SF2R x - SF2R y) (SFsub prec emax x y).
Proof.
  destruct x as [sx|sx| |sx mx ex], y as [sy|sy| |sy my ey]; cbn [finite]; intros Fx Fy;
    try contradiction.
  - replace (SF2R (S754_zero sx) - SF2R (S754_zero sy)) with 0 by (cbn [SF2R]; lra).
    unfold SFsub.
    destruct sx, sy; apply (rounded_exact (S754_zero _) I).
  - replace (SF2R (S754_zero sx) - SF2R (S754_finite sy my ey))
      with (SF2R (S754_finite (negb sy) my ey)).
    + now apply rounded_exact.
    + rewrite !SF2R_finite_eq. cbn [SF2R]. destruct sy; cbn [negb sgnR]; lra.
  - replace (SF2R (S754_finite sx mx ex) - SF2R (S754_zero sy))
      with (SF2R (S754_finite sx mx ex)) by (cbn [SF2R]; lra).
    now apply rounded_exact.
  - unfold SFsub.
    rewrite <- (aligned_sum sx mx ex sy my ey Z.sub Rminus minus_IZR).
    + apply binary_normalize_rounded.
    + intros; ring.
Qed.

Lemma sgnR_xorb a b : sgnR (xorb a b) = sgnR a * sgnR b.
Proof. destruct a, b; cbn [xorb sgnR]; lra. Qed.

Lemma SFmul_rounded x y :
  finite x -> finite y -> rounded (SF2R x * SF2R y) (SFmul prec emax x y).
Proof.
  destruct x as [sx|sx| |sx mx ex], y as [sy|sy| |sy my ey]; cbn [finite]; intros Fx Fy;
    try contradiction;
    try (replace (SF2R _ * SF2R _) with (SF2R (S754_zero (xorb sx sy)))
           by (cbn [SF2R]; lra); now apply rounded_exact).
  unfold SFmul. rewrite !SF2R_finite_eq.
  pose proof (bpow_pos ex). pose proof (bpow_pos ey).
  assert (0 < IZR (Zpos mx)) by (apply IZR_lt; lia).
  assert (0 < IZR (Zpos my)) by (apply IZR_lt; lia).
  replace (sgnR sx * (IZR (Zpos mx) * bpow ex) * (sgnR sy * (IZR (Zpos my) * bpow ey)))
    with (sgnR (xorb sx sy) * (IZR (Zpos (mx * my)) * bpow (ex + ey)))
    by (rewrite sgnR_xorb, Pos2Z.inj_mul, mult_IZR, bpow_add; ring).
  pose proof (bpow_pos (ex + ey)).
  assert (0 < IZR (Zpos (mx * my))) by (apply IZR_lt; lia).
  apply binary_round_aux_rounded; [lia| |nra|now left].
  cbn [located]. field. lra.
Qed.

Lemma new_location_located q r nb :
  (0 <= r < nb)%Z ->
  located (IZR q + IZR r / IZR nb) q (new_location nb r).
Proof.
  intros [Hr0 Hr1].
  assert (Hnb : 0 < IZR nb) by (apply IZR_lt; lia).
  assert (Hlt : IZR r / IZR nb < 1).
  { apply (Rmult_lt_reg_r (IZR nb)); [lra|].
    replace (IZR r / IZR nb * IZR nb) with (IZR r) by (field; lra).
    rewrite Rmult_1_l. now apply IZR_lt. }
  assert (Hhalf : forall c, (2 * r ?= nb)%Z = c ->
            match c with
            | Lt => IZR r / IZR nb < / 2
            | Eq => IZR r / IZR nb = / 2
            | Gt => / 2 < IZR r / IZR nb
            end).
  { intros c Hc. destruct c.
    - apply Z.compare_eq in Hc. rewrite <- Hc, mult_IZR. field.
      apply IZR_lt in Hr1. intros E0. rewrite <- Hc, mult_IZR in Hnb. lra.
    - rewrite Z.compare_lt_iff in Hc. apply IZR_lt in Hc. rewrite mult_IZR in Hc.
      apply (Rmult_lt_reg_r (IZR nb)); [lra|].
      replace (IZR r / IZR nb * IZR nb) with (IZR r) by (field; lra). lra.
    - rewrite Z.compare_gt_iff in Hc. apply IZR_lt in Hc. rewrite mult_IZR in Hc.
      apply (Rmult_lt_reg_r (IZR nb)); [lra|].
      replace (IZR r / IZR nb * IZR nb) with (IZR r) by (field; lra). lra. }
  unfold new_location, new_location_even, new_location_odd.
  destruct (Z.even nb) eqn:Hev; cbv beta; destruct (Z.eqb_spec r 0) as [Hr|Hr];
    try (rewrite Hr; cbn [located]; unfold Rdiv; rewrite Rmult_0_l; lra).
  - assert (Hpos : 0 < IZR r / IZR nb)
      by (apply Rdiv_lt_0_compat; [apply IZR_lt; lia|lra]).
    pose proof (Hhalf _ eq_refl) as Hc.
    destruct (2 * r ?= nb)%Z; cbn [located]; lra.
  - assert (Hpos : 0 < IZR r / IZR nb)
      by (apply Rdiv_lt_0_compat; [apply IZR_lt; lia|lra]).
    assert (Hne : (2 * r <> nb)%Z).
    { intros EQ. rewrite <- EQ, Z.even_mul in Hev. discriminate. }
    destruct (2 * r + 1 ?= nb)%Z eqn:Hc1.
    + apply Z.compare_eq in Hc1.
      pose proof (Hhalf Lt ltac:(apply Z.compare_lt_iff; lia)). cbn [located]. lra.
    + rewrite Z.compare_lt_iff in Hc1.
      pose proof (Hhalf Lt ltac:(apply Z.compare_lt_iff; lia)). cbn [located]. lra.
    + rewrite Z.compare_gt_iff in Hc1.
      pose proof (Hhalf Gt ltac:(apply Z.compare_gt_iff; lia)). cbn [located]. lra.
Qed.

Lemma SFdiv_core_binary_spec mx ex my ey :
  let v := (IZR (Zpos mx) * bpow ex) / (IZR (Zpos my) * bpow ey) in
  let '(q, e', l) := SFdiv_core_binary prec emax (Zpos mx) ex (Zpos my) ey in
  (0 <= q)%Z /\ located (v / bpow e') q l /\ bpow (e' - 1) <= u_rn * v + eta_rn.
Proof.
  intros v. unfold SFdiv_core_binary.
  set (d1 := Zdigits2 (Zpos mx)). set (d2 := Zdigits2 (Zpos my)).
  set (e' := Z.min (fexp prec emax (d1 + ex - (d2 + ey))) (ex - ey)).
  set (s := (ex - ey - e')%Z).
  assert (Hs : (0 <= s)%Z) by (unfold s, e'; lia).
  set (m' := match s with Zpos _ => Z.shiftl (Zpos mx) s | Z0 => Zpos mx | Zneg _ => 0%Z end).
  assert (Hm' : m' = (Zpos mx * 2 ^ s)%Z).
  { unfold m'. destruct s as [|p|p]; [rewrite Z.pow_0_r; lia| |lia].
    apply Z.shiftl_mul_pow2. lia. }
  pose proof (Z_div_mod m' (Zpos my) ltac:(lia)) as Hdiv.
  destruct (Z.div_eucl m' (Zpos my)) as [q r]. destruct Hdiv as [Hqr Hr].
  pose proof (bpow_pos ex). pose proof (bpow_pos ey). pose proof (bpow_pos e').
  assert (Hmx : 0 < IZR (Zpos mx)) by (apply IZR_lt; lia).
  assert (Hmy : 0 < IZR (Zpos my)) by (apply IZR_lt; lia).
  assert (H2s : (0 < 2 ^ s)%Z) by (apply Z.pow_pos_nonneg; lia).
  assert (Hq : (0 <= q)%Z) by nia.
  split; [exact Hq|]. split.
  - replace (v / bpow e') with (IZR q + IZR r / IZR (Zpos my)).
    + now apply new_location_located.
    + unfold v.
      assert (Hreal : IZR (Zpos mx) * bpow s = IZR (Zpos my) * IZR q + IZR r).
      { rewrite bpow_IZR by lia. rewrite <- !mult_IZR, <- plus_IZR. f_equal. lia. }
      replace (bpow ex) with (bpow s * bpow ey * bpow e')
        by (rewrite <- !bpow_add; f_equal; unfold s; lia).
      pose proof (bpow_pos s).
      apply (Rmult_eq_reg_r (IZR (Zpos my))); [|lra].
      transitivity (IZR (Zpos my) * IZR q + IZR r); [field; lra|].
      rewrite <- Hreal. field. repeat split; lra.
  - set (dl := (d1 + ex - (d2 + ey))%Z) in *.
    assert (Hv : bpow (dl - 1) <= v).
    { unfold v. pose proof (digits2_pos_bounds mx) as [L1 _].
      pose proof (digits2_pos_bounds my) as [_ U2].
      fold (Zdigits2 (Zpos mx)) in L1. fold d1 in L1.
      fold (Zdigits2 (Zpos my)) in U2. fold d2 in U2.
      assert (0 <= d1 - 1)%Z by (unfold d1; cbn [Zdigits2]; lia).
      assert (0 <= d2)%Z by (unfold d2; cbn [Zdigits2]; lia).
      apply IZR_le in L1. apply IZR_lt in U2. rewrite <- bpow_IZR in L1, U2 by lia.
      replace (dl - 1)%Z with ((d1 - 1) + ex - d2 - ey)%Z by (unfold dl; lia).
      unfold Z.sub at 1 2. rewrite !bpow_add, !bpow_opp.
      pose proof (bpow_pos (d1 - 1)). pose proof (bpow_pos d2).
      apply Rle_trans with (bpow (d1 - 1) * bpow ex / (bpow d2 * bpow ey)).
      - right. field. split; lra.
      - unfold Rdiv. apply Rmult_le_compat.
        + nra.
        + left. apply Rinv_0_lt_compat. nra.
        + nra.
        + apply Rinv_le_contravar; nra. }
    assert (He'f : (e' <= fexp prec emax dl)%Z) by (unfold e'; lia).
    rewrite fexp_eq in He'f.
    pose proof u_pos. pose proof eta_pos.
    assert (0 < v) by (pose proof (bpow_pos (dl - 1)); lra).
    destruct (Z_le_gt_dec (dl - 53) (-1074)) as [C|C].
    + apply Rle_trans with eta_rn; [apply bpow_le; lia|nra].
    + apply Rle_trans with (u_rn * bpow (dl - 1)).
      * unfold u_rn. rewrite <- bpow_add. apply bpow_le. lia.
      * nra.
Qed.

Lemma SFdiv_rounded x y :
  finite x -> finite y -> SF2R y <> 0 ->
  rounded (SF2R x / SF2R y) (SFdiv prec emax x y).
Proof.
  destruct x as [sx|sx| |sx mx ex], y as [sy|sy| |sy my ey]; cbn [finite]; intros Fx Fy Hy;
    try contradiction; try (cbn [SF2R] in Hy; lra).
  - replace (SF2R (S754_zero sx) / SF2R (S754_finite sy my ey))
      with (SF2R (S754_zero (xorb sx sy))) by (cbn [SF2R]; unfold Rdiv; lra).
    now apply rounded_exact.
  - unfold SFdiv.
    pose proof (SFdiv_core_binary_spec mx ex my ey) as Hcore. cbv zeta in Hcore.
    destruct (SFdiv_core_binary prec emax (Zpos mx) ex (Zpos my) ey) as [[q e'] l].
    destruct Hcore as (Hq & Hl & Hb).
    pose proof (bpow_pos ex). pose proof (bpow_pos ey).
    assert (Hmx : 0 < IZR (Zpos mx)) by (apply IZR_lt; lia).
    assert (Hmy : 0 < IZR (Zpos my)) by (apply IZR_lt; lia).
    rewrite !SF2R_finite_eq.
    replace (sgnR sx * (IZR (Zpos mx) * bpow ex) / (sgnR sy * (IZR (Zpos my) * bpow ey)))
      with (sgnR (xorb sx sy) * (IZR (Zpos mx) * bpow ex / (IZR (Zpos my) * bpow ey))).
    + apply binary_round_aux_rounded; [exact Hq|exact Hl| |now right].
      apply Rdiv_lt_0_compat; nra.
    + rewrite sgnR_xorb. destruct sx, sy; cbn [sgnR]; field; repeat split; lra.
Qed.

(** ** Well-formed floats and their order *)

Lemma valid_finite_inv s m e :
  valid_binary (S754_finite s m e) = true ->
  (Zpos m < 2 ^ 53)%Z /\ (-1074 <= e <= 971)%Z /\ (e = (-1074)%Z \/ (2 ^ 52 <= Zpos m)%Z).
Proof.
  cbn [SpecFloat.valid_binary]. unfold bounded, canonical_mantissa.
  rewrite andb_true_iff, Z.eqb_eq, Z.leb_le, fexp_eq.
  change (emax - prec)%Z with 971%Z. intros [Hc He].
  pose proof (digits2_pos_bounds m) as [L U].
  set (d := Zpos (digits2_pos m)) in *.
  assert (Hd : (d <= 53)%Z) by lia.
  split; [|split; [lia|]].
  - apply Z.lt_le_trans with (1 := U). apply Z.pow_le_mono_r; lia.
  - destruct (Z.eq_dec e (-1074)) as [?|NE]; [now left|right].
    assert (d = 53%Z) by lia. replace 52%Z with (d - 1)%Z by lia. exact L.
Qed.

(** The order on positive well-formed floats is the order of their
    values. *)
Lemma SFcompare_pos m1 e1 m2 e2 :
  valid_binary (S754_finite false m1 e1) = true ->
  valid_binary (S754_finite false m2 e2) = true ->
  match SFcompare (S754_finite false m1 e1) (S754_finite false m2 e2) with
  | Some Lt => IZR (Zpos m1) * bpow e1 < IZR (Zpos m2) * bpow e2
  | Some Eq => m1 = m2 /\ e1 = e2
  | Some Gt => IZR (Zpos m2) * bpow e2 < IZR (Zpos m1) * bpow e1
  | None => False
  end.
Proof.
  intros V1 V2.
  destruct (valid_finite_inv _ _ _ V1) as (U1 & R1 & N1).
  destruct (valid_finite_inv _ _ _ V2) as (U2 & R2 & N2).
  assert (Hlt : forall ma ea mb eb, (Zpos ma < 2 ^ 53)%Z -> (2 ^ 52 <= Zpos mb)%Z ->
            (ea < eb)%Z -> IZR (Zpos ma) * bpow ea < IZR (Zpos mb) * bpow eb).
  { intros ma ea mb eb Ua Lb Hab.
    apply IZR_lt in Ua. apply IZR_le in Lb.
    rewrite <- bpow_IZR in Ua, Lb by lia.
    pose proof (bpow_pos ea). pose proof (bpow_pos eb).
    apply Rlt_le_trans with (bpow 53 * bpow ea); [apply Rmult_lt_compat_r; lra|].
    apply Rle_trans with (bpow 52 * bpow eb); [|apply Rmult_le_compat_r; lra].
    rewrite <- !bpow_add. apply bpow_le. lia. }
  cbn [SFcompare].
  destruct (Z.compare_spec e1 e2) as [E|L|G].
  - subst e2. rewrite Pos.compare_cont_spec. cbn [Pos.switch_Eq].
    pose proof (bpow_pos e1).
    destruct (Pos.compare_spec m1 m2) as [E|L|G].
    + now split.
    + apply Rmult_lt_compat_r; [lra|]. apply IZR_lt. lia.
    + apply Rmult_lt_compat_r; [lra|]. apply IZR_lt. lia.
  - apply Hlt; [lia| |lia]. destruct N2; [lia|assumption].
  - apply Hlt; [lia| |lia]. destruct N1; [lia|assumption].
Qed.

(** Two well-formed floats of one non-zero value are one float. *)
Lemma SF2R_inj x y :
  valid_binary x = true -> valid_binary y = true ->
  finite x -> finite y -> SF2R x = SF2R y -> SF2R x <> 0 -> x = y.
Proof.
  destruct x as [sx|sx| |sx mx ex], y as [sy|sy| |sy my ey]; cbn [finite];
    intros Vx Vy Fx Fy E NZ; try contradiction; try (cbn [SF2R] in NZ; lra).
  rewrite !SF2R_finite_eq in E.
  pose proof (bpow_pos ex). pose proof (bpow_pos ey).
  assert (0 < IZR (Zpos mx)) by (apply IZR_lt; lia).
  assert (0 < IZR (Zpos my)) by (apply IZR_lt; lia).
  assert (Px : 0 < IZR (Zpos mx) * bpow ex) by nra.
  assert (Py : 0 < IZR (Zpos my) * bpow ey) by nra.
  assert (sx = sy) by (destruct sx, sy; cbn [sgnR] in E; try reflexivity; lra).
  subst sy.
  assert (E' : IZR (Zpos mx) * bpow ex = IZR (Zpos my) * bpow ey)
    by (destruct sx; cbn [sgnR] in E; lra).
  pose proof (SFcompare_pos mx ex my ey Vx Vy) as C.
  destruct (SFcompare (S754_finite false mx ex) (S754_finite false my ey)) as [[| |]|];
    try lra; try contradiction.
  destruct C as [-> ->]. reflexivity.
Qed.

Lemma SFleb_zero_nonneg x : SFleb (S754_zero false) x = true -> nonneg x.
Proof.
  destruct x as [s|s| |s m e]; cbn; try discriminate; try (intros; exact I);
    destruct s; (discriminate || reflexivity).
Qed.

Lemma SFltb_zero_false_nonneg x :
  x <> S754_nan -> SFltb x (S754_zero false) = false -> nonneg x.
Proof.
  destruct x as [s|s| |s m e]; cbn; try (intros; exact I); try congruence;
    destruct s; (discriminate || reflexivity).
Qed.

Lemma nonneg_SF2R x : nonneg x -> 0 <= SF2R x.
Proof.
  destruct x as [s|s| |s m e]; cbn [nonneg SF2R]; intros H; try lra.
  subst s. cbn [cond_Zopp]. pose proof (bpow_pos e).
  assert (0 < IZR (Zpos m)) by (apply IZR_lt; lia). nra.
Qed.

(** [x <= c] for a positive float [c]: [x] is not infinite upwards, and its
    value is at most that of [c]. *)
Lemma SFleb_pos_bound x mc ec :
  valid_binary x = true -> valid_binary (S754_finite false mc ec) = true ->
  nonneg x -> SFleb x (S754_finite false mc ec) = true ->
  finite x /\ SF2R x <= IZR (Zpos mc) * bpow ec.
Proof.
  intros Vx Vc Nx. pose proof (bpow_pos ec).
  assert (0 < IZR (Zpos mc)) by (apply IZR_lt; lia).
  destruct x as [s|s| |s m e]; cbn [nonneg] in Nx; try contradiction.
  - intros _. cbn [finite SF2R]. split; [exact I|nra].
  - subst s. cbn. discriminate.
  - subst s. unfold SFleb. pose proof (SFcompare_pos m e mc ec Vx Vc) as C.
    destruct (SFcompare (S754_finite false m e) (S754_finite false mc ec)) as [[| |]|];
      try discriminate; intros _; (split; [exact I|]); cbn [SF2R cond_Zopp].
    + destruct C as [-> ->]. lra.
    + lra.
Qed.


Lemma SFeqb_refl x : finite x -> SFeqb x x = true.
Proof.
  destruct x as [s|s| |s m e]; cbn [finite]; try contradiction; intros _.
  - reflexivity.
  - unfold SFeqb. cbn [SFcompare].
    destruct s; rewrite Z.compare_refl, Pos.compare_cont_refl; reflexivity.
Qed.

(** ** Primitive floats *)

Lemma add_rounded x y :
  is_finite x -> is_finite y -> rounded (F2R x + F2R y) (Prim2SF (x + y)%float).
Proof. intros. rewrite FloatAxioms.add_spec. now apply SFadd_rounded. Qed.

Lemma sub_rounded x y :
  is_finite x -> is_finite y -> rounded (F2R x - F2R y) (Prim2SF (x - y)%float).
Proof. intros. rewrite FloatAxioms.sub_spec. now apply SFsub_rounded. Qed.

Lemma mul_rounded x y :
  is_finite x -> is_finite y -> rounded (F2R x * F2R y) (Prim2SF (x * y)%float).
Proof. intros. rewrite FloatAxioms.mul_spec. now apply SFmul_rounded. Qed.

Lemma div_rounded x y :
  is_finite x -> is_finite y -> F2R y <> 0 ->
  rounded (F2R x / F2R y) (Prim2SF (x / y)%float).
Proof. intros. rewrite FloatAxioms.div_spec. now apply SFdiv_rounded. Qed.

Lemma bpow_970_big : 10 ^ 30 < bpow 970.
Proof.
  apply Rlt_le_trans with (bpow 100).
  - rewrite bpow_IZR by lia. change (2 ^ 100)%Z with 1267650600228229401496703205376%Z. lra.
  - apply bpow_le. lia.
Qed.

Lemma u_value : u_rn = / 9007199254740992.
Proof.
  unfold u_rn. change (-53)%Z with (Z.opp 53). rewrite bpow_opp, bpow_IZR by lia. reflexivity.
Qed.

Lemma eta_small : eta_rn <= / 10 ^ 30.
Proof.
  apply Rle_trans with (bpow (-100)); [apply bpow_le; lia|].
  change (-100)%Z with (Z.opp 100). rewrite bpow_opp, bpow_IZR by lia.
  change (2 ^ 100)%Z with 1267650600228229401496703205376%Z.
  apply Rinv_le_contravar; lra.
Qed.

(** The error model with the magnitude of the exact result bounded by a
    constant [W]. *)
Lemma rounded_within w r W :
  rounded w r -> Rabs w <= W -> W <= 10 ^ 30 ->
  finite r /\ Rabs (SF2R r - w) <= u_rn * W + eta_rn.
Proof.
  intros Hr Hw HW. pose proof bpow_970_big. pose proof u_pos.
  assert (F : finite r) by (apply (rounded_finite w); [assumption|lra]).
  split; [exact F|]. pose proof (rounded_error _ _ Hr F). nra.
Qed.

(** ** Integers as floats, and [Math.round] *)

Lemma binary_round_int_exact p :
  (Zpos p < 2 ^ 53)%Z ->
  exists m e, binary_round prec emax false p 0 = S754_finite false m e /\
              IZR (Zpos m) * bpow e = IZR (Zpos p).
Proof.
  intros Hp. unfold binary_round.
  pose proof (digits2_pos_bounds p) as [L U].
  set (d := Zpos (digits2_pos p)) in *.
  assert (Hd : (d <= 53)%Z).
  { destruct (Z_le_gt_dec d 53) as [?|G]; [assumption|exfalso].
    assert (2 ^ 53 <= 2 ^ (d - 1))%Z by (apply Z.pow_le_mono_r; lia). lia. }
  destruct (shl_align_value p 0 (fexp prec emax (d + 0))) as [Hmz Hez].
  pose proof (shl_align_real p 0 (fexp prec emax (d + 0))) as Hreal.
  destruct (shl_align p 0 (fexp prec emax (d + 0))) as [mz ez].
  cbn [fst snd] in Hmz, Hez, Hreal. rewrite fexp_eq in Hez.
  rewrite bpow_0, Rmult_1_r in Hreal.
  pose proof (bpow_pos ez) as Hbez.
  assert (Hl : located (IZR (Zpos p) / bpow ez) (Zpos mz) loc_Exact).
  { cbn [located]. rewrite <- Hreal. field. lra. }
  destruct (binary_round_aux_spec false (Zpos mz) ez loc_Exact (IZR (Zpos p)) ltac:(lia) Hl)
    as (k & _ & _ & Hexact & Hres).
  assert (HE : Z.max ez (fexp prec emax (Zdigits2 (Zpos mz) + ez)) = ez).
  { assert (Zdigits2 (Zpos mz) <= d - ez)%Z.
    { apply Zdigits2_le; [|lia]. split; [lia|]. rewrite Hmz.
      replace (d - ez)%Z with (d + (0 - ez))%Z by lia.
      rewrite Z.pow_add_r by lia.
      apply Z.mul_lt_mono_pos_r; [apply Z.pow_pos_nonneg; lia|exact U]. }
    rewrite fexp_eq. lia. }
  rewrite HE in *. specialize (Hexact eq_refl eq_refl). subst k.
  destruct (binary_round_aux prec emax false (Zpos mz) ez loc_Exact) as [s|s| |s m e].
  - destruct Hres as [_ Hres]. discriminate.
  - destruct Hres as (_ & Hres & _). lia.
  - contradiction.
  - destruct Hres as (-> & Hres & _). exists m, e. split; [reflexivity|]. lra.
Qed.

Lemma of_nonneg_Z_exact p :
  (Zpos p < 2 ^ 53)%Z ->
  exists m e, Prim2SF (Js.of_nonneg_Z (Zpos p)) = S754_finite false m e /\
              IZR (Zpos m) * bpow e = IZR (Zpos p).
Proof.
  intros Hp. unfold Js.of_nonneg_Z. rewrite of_uint63_spec, Uint63.of_Z_spec.
  rewrite Z.mod_small.
  - now apply binary_round_int_exact.
  - split; [lia|]. apply Z.lt_trans with (1 := Hp). reflexivity.
Qed.

(** [Math.round] on a finite number returns the integer [floor (x + 1/2)],
    as long as that integer is below 2^53 in magnitude (it always is for a
    well-formed float with a fractional part). *)
Lemma Math_round_floor x :
  is_finite x ->
  exists K : Z,
    IZR K - / 2 <= F2R x < IZR K + / 2 /\
    ((Z.abs K < 2 ^ 53)%Z ->
     is_finite (Js.Math_round x) /\ F2R (Js.Math_round x) = IZR K /\
     (is_nonneg x -> is_nonneg (Js.Math_round x))).
Proof.
  unfold is_finite, F2R, is_nonneg, Js.Math_round.
  destruct (Prim2SF x) as [s|s| |s m e] eqn:Hx; cbn [finite]; intros F; try contradiction.
  - exists 0%Z. cbn [SF2R]. split; [lra|]. intros _. rewrite Hx. cbn [finite SF2R nonneg]. auto.
  - destruct (Z.leb_spec 0 e) as [He|He].
    + exists (cond_Zopp s (Zpos m) * 2 ^ e)%Z. cbn [SF2R].
      rewrite mult_IZR, <- bpow_IZR by lia. split; [lra|].
      intros _. rewrite Hx. cbn [finite SF2R nonneg]. auto.
    + set (P := (2 ^ (- e))%Z).
      assert (HP : (0 < P)%Z) by (apply Z.pow_pos_nonneg; lia).
      assert (HP2 : (2 ^ (1 - e) = 2 * P)%Z).
      { unfold P. replace (1 - e)%Z with (Z.succ (- e)) by lia. apply Z.pow_succ_r. lia. }
      rewrite HP2.
      set (num := (cond_Zopp s (2 * Zpos m) + P)%Z).
      set (K := (num / (2 * P))%Z).
      exists K.
      assert (Hdiv : (2 * P * K <= num < 2 * P * K + 2 * P)%Z).
      { pose proof (Z.mul_div_le num (2 * P) ltac:(lia)).
        pose proof (Z.mul_succ_div_gt num (2 * P) ltac:(lia)). fold K in H, H0. lia. }
      assert (Hbe : bpow e = / IZR P).
      { unfold P. rewrite <- bpow_IZR by lia. rewrite bpow_opp, Rinv_inv. reflexivity. }
      assert (HPr : 0 < IZR P) by (apply IZR_lt; lia).
      assert (Hv : SF2R (S754_finite s m e) * (2 * IZR P) = IZR num - IZR P).
      { cbn [SF2R]. rewrite Hbe. unfold num. rewrite plus_IZR.
        replace (cond_Zopp s (2 * Zpos m)) with (2 * cond_Zopp s (Zpos m))%Z
          by (destruct s; cbn [cond_Zopp]; lia).
        rewrite mult_IZR. field. lra. }
      destruct Hdiv as [D1 D2]. apply IZR_le in D1. apply IZR_lt in D2.
      rewrite plus_IZR in D2. rewrite !mult_IZR in D1, D2.
      split.
      { split.
        - apply (Rmult_le_reg_r (2 * IZR P)); [lra|]. rewrite Hv. nra.
        - apply (Rmult_lt_reg_r (2 * IZR P)); [lra|]. rewrite Hv. nra. }
      intros HK.
      assert (HKs : s = false -> (0 <= K)%Z).
      { intros ->. unfold K. apply Z.div_pos; [|lia]. unfold num. cbn [cond_Zopp]. lia. }
      destruct K as [|p|p] eqn:EK.
      * split; [|split]; [destruct s; reflexivity|destruct s; reflexivity|].
        intros _. destruct s; exact I.
      * destruct (of_nonneg_Z_exact p ltac:(lia)) as (m' & e' & Hp & Hval).
        rewrite Hp. cbn [finite SF2R cond_Zopp nonneg]. auto.
      * destruct (of_nonneg_Z_exact p ltac:(lia)) as (m' & e' & Hp & Hval).
        rewrite FloatAxioms.opp_spec, Hp. cbn [SFopp negb finite SF2R cond_Zopp nonneg].
        split; [exact I|]. split.
        -- change (Zneg m') with (- Zpos m')%Z. change (Zneg p) with (- Zpos p)%Z.
           rewrite !opp_IZR. lra.
        -- intros Hs. specialize (HKs Hs). lia.
Qed.

(** ** Constants of the program *)

Lemma pow10_2 : Js.Math_pow10 2 = 100%float.
Proof. vm_compute. reflexivity. Qed.

Lemma Prim2SF_100 : Prim2SF 100%float = S754_finite false 7036874417766400 (-46).
Proof. vm_compute. reflexivity. Qed.

Lemma Prim2SF_1 : Prim2SF 1%float = S754_finite false 4503599627370496 (-52).
Proof. vm_compute. reflexivity. Qed.

Lemma Prim2SF_0 : Prim2SF 0%float = S754_zero false.
Proof. vm_compute. reflexivity. Qed.

Lemma Prim2SF_EPSILON :
  Prim2SF Js.Number_EPSILON = S754_finite false 4503599627370496 (-104).
Proof. vm_compute. reflexivity. Qed.

Lemma bpow_neg_value n : (0 <= n)%Z -> bpow (- n) = / IZR (2 ^ n).
Proof. intros H. now rewrite bpow_opp, bpow_IZR. Qed.

Lemma F2R_100 : F2R 100%float = 100.
Proof.
  unfold F2R. rewrite Prim2SF_100. cbn [SF2R cond_Zopp].
  change (-46)%Z with (Z.opp 46). rewrite bpow_neg_value by lia.
  change (2 ^ 46)%Z with 70368744177664%Z. lra.
Qed.

Lemma F2R_1 : F2R 1%float = 1.
Proof.
  unfold F2R. rewrite Prim2SF_1. cbn [SF2R cond_Zopp].
  change (-52)%Z with (Z.opp 52). rewrite bpow_neg_value by lia.
  change (2 ^ 52)%Z with 4503599627370496%Z. lra.
Qed.

Lemma F2R_EPSILON : F2R Js.Number_EPSILON = / 4503599627370496.
Proof.
  unfold F2R. rewrite Prim2SF_EPSILON. cbn [SF2R cond_Zopp].
  change (-104)%Z with (Z.opp 104). rewrite bpow_neg_value by lia.
  change (2 ^ 104)%Z with (4503599627370496 * 4503599627370496)%Z.
  rewrite mult_IZR. field.
Qed.

Lemma finite_100 : is_finite 100%float.
Proof. unfold is_finite. now rewrite Prim2SF_100. Qed.

Lemma finite_1 : is_finite 1%float.
Proof. unfold is_finite. now rewrite Prim2SF_1. Qed.

Lemma finite_EPSILON : is_finite Js.Number_EPSILON.
Proof. unfold is_finite. now rewrite Prim2SF_EPSILON. Qed.

(** ** Rounding to cents *)

Lemma Rabs_le_both a b : Rabs a <= b -> - b <= a <= b.
Proof. intros H. unfold Rabs in H. destruct Rcase_abs in H; lra. Qed.

Lemma cents_value K f W :
  is_cents K f -> Rabs (IZR K) <= 100 * W -> W <= 10 ^ 30 ->
  is_finite f /\ Rabs (F2R f - IZR K / 100) <= u_rn * W + eta_rn.
Proof.
  intros (X & FX & VX & ->) HK HW.
  pose proof (div_rounded X 100%float FX finite_100) as Hr.
  rewrite F2R_100, VX in Hr. specialize (Hr ltac:(lra)).
  apply rounded_within; [exact Hr| |exact HW].
  apply Rabs_le_both in HK. apply Rabs_le. lra.
Qed.

Lemma cents_eqb K f g :
  is_cents K f -> is_cents K g -> Rabs (IZR K) <= 10 ^ 30 -> (f =? g)%float = true.
Proof.
  intros Hf Hg HK.
  destruct (cents_value K f (10 ^ 30) Hf ltac:(lra) ltac:(lra)) as [Ff _].
  destruct (cents_value K g (10 ^ 30) Hg ltac:(lra) ltac:(lra)) as [Fg _].
  destruct Hf as (X & FX & VX & ->). destruct Hg as (Y & FY & VY & ->).
  rewrite FloatAxioms.eqb_spec.
  destruct (Z.eq_dec K 0) as [->|NZ].
  - unfold is_finite, F2R in *.
    rewrite !FloatAxioms.div_spec, Prim2SF_100 in *.
    destruct (Prim2SF X) as [sx|sx| |sx mx ex]; try contradiction;
      destruct (Prim2SF Y) as [sy|sy| |sy my ey]; try contradiction;
      try reflexivity; exfalso.
    all: try (rewrite SF2R_finite_eq in VX; pose proof (bpow_pos ex);
              assert (0 < IZR (Zpos mx)) by (apply IZR_lt; lia);
              destruct sx; cbn [sgnR] in VX; nra).
    all: rewrite SF2R_finite_eq in VY; pose proof (bpow_pos ey);
      assert (0 < IZR (Zpos my)) by (apply IZR_lt; lia);
      destruct sy; cbn [sgnR] in VY; nra.
  - assert (X = Y).
    { apply Prim2SF_inj.
      apply SF2R_inj; try apply Prim2SF_valid; try assumption.
      - unfold F2R in VX, VY. congruence.
      - unfold F2R in VX. rewrite VX. intros E0. apply eq_IZR in E0. contradiction. }
    subst Y. now apply SFeqb_refl.
Qed.

(** [roundToDecimal x 2] is a float of cents: of the integer nearest to
    [100 x], up to the rounding errors of the scaling. *)
Lemma round2_floor x :
  is_finite x -> Rabs (F2R x) <= 4 * 10 ^ 12 ->
  exists K : Z,
    is_cents K (VatMath.roundToDecimal x 2) /\
    Rabs (IZR K - 100 * F2R x) <= 6 / 10.
Proof.
  intros Fx Hx. unfold VatMath.roundToDecimal. rewrite pow10_2.
  pose proof u_value as Hu. pose proof eta_small as Heta. pose proof eta_pos as Heta0.
  apply Rabs_le_both in Hx.
  pose proof (add_rounded x Js.Number_EPSILON Fx finite_EPSILON) as H1.
  rewrite F2R_EPSILON in H1.
  apply (rounded_within _ _ (4 * 10 ^ 12 + 1)) in H1; [|apply Rabs_le; lra|lra].
  destruct H1 as [F1 E1]. apply Rabs_le_both in E1.
  set (x1 := (x + Js.Number_EPSILON)%float) in *. fold (F2R x1) in E1. fold (is_finite x1) in F1.
  pose proof (mul_rounded x1 100%float F1 finite_100) as H2. rewrite F2R_100 in H2.
  apply (rounded_within _ _ (4 * 10 ^ 14 + 200)) in H2; [|apply Rabs_le; lra|lra].
  destruct H2 as [F2 E2]. apply Rabs_le_both in E2.
  set (x2 := (x1 * 100)%float) in *. fold (F2R x2) in E2. fold (is_finite x2) in F2.
  destruct (Math_round_floor x2 F2) as (K & HK & Hround).
  assert (HKb : - (5 * 10 ^ 14) <= IZR K <= 5 * 10 ^ 14) by lra.
  assert (HKz : (Z.abs K < 2 ^ 53)%Z).
  { destruct HKb as [L U].
    replace (5 * 10 ^ 14) with (IZR 500000000000000) in L, U by (simpl; lra).
    rewrite <- opp_IZR in L. apply le_IZR in L, U.
    change (2 ^ 53)%Z with 9007199254740992%Z. lia. }
  destruct (Hround HKz) as (FX & VX & _).
  exists K. split.
  - exists (Js.Math_round x2). auto.
  - apply Rabs_le. lra.
Qed.

Lemma round2_near x K :
  is_finite x -> Rabs (IZR K) <= 3 * 10 ^ 14 ->
  Rabs (F2R x - IZR K / 100) <= / 1000 ->
  is_cents K (VatMath.roundToDecimal x 2).
Proof.
  intros Fx HK Hx. apply Rabs_le_both in HK, Hx.
  destruct (round2_floor x Fx) as (K' & HC & HK'); [apply Rabs_le; lra|].
  apply Rabs_le_both in HK'.
  assert (K' = K).
  { assert (IZR (K' - K) < 1) by (rewrite minus_IZR; lra).
    assert (-1 < IZR (K' - K)) by (rewrite minus_IZR; lra).
    apply lt_IZR in H. apply lt_IZR in H0. lia. }
  now subst K'.
Qed.

(** ** Reading the comparisons of the program *)

Lemma leb_zero_nonneg x : (0 <=? x)%float = true -> is_nonneg x.
Proof.
  rewrite FloatAxioms.leb_spec, Prim2SF_0. apply SFleb_zero_nonneg.
Qed.

Lemma leb_bound x c mc ec :
  Prim2SF c = S754_finite false mc ec ->
  is_nonneg x -> (x <=? c)%float = true ->
  is_finite x /\ 0 <= F2R x <= F2R c.
Proof.
  intros Hc Nx. rewrite FloatAxioms.leb_spec. intros H.
  pose proof (Prim2SF_valid c) as Vc. unfold F2R. rewrite Hc in *.
  destruct (SFleb_pos_bound _ mc ec (Prim2SF_valid x) Vc Nx H) as [F B].
  split; [exact F|]. split; [now apply nonneg_SF2R|exact B].
Qed.

Lemma ltb_infinity_finite x :
  is_nonneg x -> (x <? infinity)%float = true -> is_finite x.
Proof.
  unfold is_nonneg, is_finite. rewrite FloatAxioms.ltb_spec.
  change (Prim2SF infinity) with (S754_infinity false).
  destruct (Prim2SF x) as [s|s| |s m e]; cbn [nonneg finite]; auto.
  intros ->. cbn. discriminate.
Qed.

Lemma rounded_nonneg w r : rounded w r -> 0 <= w -> nonneg r.
Proof.
  destruct r as [s|s| |s m e]; cbn [rounded nonneg]; intros H Hw; auto;
    destruct H as [_ H]; destruct s; auto; lra.
Qed.

(** ** Non-negative numbers stay non-negative *)

Lemma nonneg_add x y : is_nonneg x -> is_nonneg y -> is_nonneg (x + y)%float.
Proof.
  unfold is_nonneg. rewrite FloatAxioms.add_spec. intros Nx Ny.
  pose proof (nonneg_SF2R _ Nx). pose proof (nonneg_SF2R _ Ny).
  pose proof (SFadd_rounded (Prim2SF x) (Prim2SF y)) as Hr.
  destruct (Prim2SF x) as [sx|sx| |sx mx ex]; cbn [nonneg] in Nx; try contradiction;
    destruct (Prim2SF y) as [sy|sy| |sy my ey]; cbn [nonneg] in Ny; try contradiction;
    subst; try (apply (rounded_nonneg _ _ (Hr I I)); lra);
    try (destruct sx); try (destruct sy); cbn; auto.
Qed.

Lemma nonneg_mul x y :
  is_nonneg x -> is_nonneg y ->
  is_finite x \/ F2R y <> 0 -> is_finite y \/ F2R x <> 0 ->
  is_nonneg (x * y)%float.
Proof.
  unfold is_nonneg, is_finite, F2R. rewrite FloatAxioms.mul_spec. unfold SF64mul.
  intros Nx Ny Hx Hy.
  pose proof (nonneg_SF2R _ Nx). pose proof (nonneg_SF2R _ Ny).
  pose proof (SFmul_rounded (Prim2SF x) (Prim2SF y)) as Hr.
  destruct (Prim2SF x) as [sx|sx| |sx mx ex]; cbn [nonneg] in Nx; try contradiction;
    destruct (Prim2SF y) as [sy|sy| |sy my ey]; cbn [nonneg] in Ny; try contradiction;
    subst; try (apply (rounded_nonneg _ _ (Hr I I)); nra);
    cbn [SFmul xorb nonneg finite SF2R] in *; auto;
    try (destruct Hx as [[]|Hx]; now elim Hx);
    try (destruct Hy as [[]|Hy]; now elim Hy).
Qed.

Lemma nonneg_div_100 x : is_nonneg x -> is_nonneg (x / 100)%float.
Proof.
  unfold is_nonneg. rewrite FloatAxioms.div_spec, Prim2SF_100. intros Nx.
  pose proof (nonneg_SF2R _ Nx).
  pose proof (SFdiv_rounded (Prim2SF x) (S754_finite false 7036874417766400 (-46))) as Hr.
  assert (H100 : SF2R (S754_finite false 7036874417766400 (-46)) = 100).
  { rewrite <- Prim2SF_100. apply F2R_100. }
  rewrite H100 in Hr.
  destruct (Prim2SF x) as [sx|sx| |sx mx ex]; cbn [nonneg] in Nx; try contradiction;
    subst; try (apply (rounded_nonneg _ _ (Hr I I ltac:(lra))); unfold Rdiv; nra);
    cbn; auto.
Qed.

Lemma nonneg_Math_round x : is_nonneg x -> is_nonneg (Js.Math_round x).
Proof.
  unfold is_nonneg, Js.Math_round.
  destruct (Prim2SF x) as [s|s| |s m e] eqn:Hx; cbn [nonneg]; intros N; try contradiction;
    try (rewrite Hx; exact N).
  subst s. destruct (Z.leb_spec 0 e) as [He|He]; [rewrite Hx; reflexivity|].
  cbn [cond_Zopp].
  assert (Hn : (0 <= (2 * Zpos m + 2 ^ (- e)) / 2 ^ (1 - e))%Z).
  { apply Z.div_pos.
    - assert (0 <= 2 ^ (- e))%Z by (apply Z.pow_nonneg; lia). lia.
    - apply Z.pow_pos_nonneg; lia. }
  destruct ((2 * Zpos m + 2 ^ (- e)) / 2 ^ (1 - e))%Z as [|p|p]; [exact I| |lia].
  unfold Js.of_nonneg_Z. rewrite of_uint63_spec.
  pose proof (Uint63.to_Z_bounded (Uint63.of_Z (Zpos p))) as [Hb _].
  apply (rounded_nonneg _ _ (binary_normalize_rounded _ 0)).
  apply IZR_le in Hb. rewrite bpow_0. lra.
Qed.

Lemma nonneg_EPSILON : is_nonneg Js.Number_EPSILON.
Proof. unfold is_nonneg. now rewrite Prim2SF_EPSILON. Qed.

Lemma nonneg_roundToDecimal x :
  is_nonneg x -> is_nonneg (VatMath.roundToDecimal x 2).
Proof.
  intros N. unfold VatMath.roundToDecimal. rewrite pow10_2.
  apply nonneg_div_100, nonneg_Math_round, nonneg_mul.
  - now apply nonneg_add, nonneg_EPSILON.
  - unfold is_nonneg. now rewrite Prim2SF_100.
  - right. rewrite F2R_100. lra.
  - left. exact finite_100.
Qed.

Lemma nonneg_eqb_refl x : is_nonneg x -> (x =? x)%float = true.
Proof.
  unfold is_nonneg. rewrite FloatAxioms.eqb_spec.
  destruct (Prim2SF x) as [s|s| |s m e] eqn:E; cbn [nonneg]; intros N; try contradiction.
  - reflexivity.
  - now subst s.
  - now apply SFeqb_refl.
Qed.

Lemma Prim2SF_1e12 : Prim2SF 1e12%float = S754_finite false 8192000000000000 (-13).
Proof. vm_compute. reflexivity. Qed.

Lemma F2R_1e12 : F2R 1e12%float = 10 ^ 12.
Proof.
  unfold F2R. rewrite Prim2SF_1e12. cbn [SF2R cond_Zopp].
  change (-13)%Z with (Z.opp 13). rewrite bpow_neg_value by lia.
  change (2 ^ 13)%Z with 8192%Z. lra.
Qed.

Lemma leb_zero_not_ltb x : (0 <=? x)%float = true -> (x <? 0)%float = false.
Proof.
  rewrite FloatAxioms.leb_spec, FloatAxioms.ltb_spec, Prim2SF_0.
  destruct (Prim2SF x) as [s|s| |s m e]; cbn; try discriminate; auto;
    destruct s; auto; discriminate.
Qed.

Lemma leb_not_ltb x c mc ec :
  Prim2SF c = S754_finite false mc ec ->
  is_nonneg x -> (x <=? c)%float = true -> (c <? x)%float = false.
Proof.
  intros Hc Nx. rewrite FloatAxioms.leb_spec, FloatAxioms.ltb_spec.
  pose proof (Prim2SF_valid c) as Vc. pose proof (Prim2SF_valid x) as Vx.
  unfold is_nonneg in Nx. rewrite Hc in *.
  destruct (Prim2SF x) as [s|s| |s m e]; cbn [nonneg] in Nx; try contradiction.
  - reflexivity.
  - subst s. discriminate.
  - subst s. unfold SFleb, SFltb.
    pose proof (SFcompare_pos m e mc ec Vx Vc) as C1.
    pose proof (SFcompare_pos mc ec m e Vc Vx) as C2.
    destruct (SFcompare (S754_finite false m e) (S754_finite false mc ec)) as [[| |]|];
      try discriminate; intros _;
      destruct (SFcompare (S754_finite false mc ec) (S754_finite false m e)) as [[| |]|];
      try reflexivity; try contradiction; exfalso.
    + destruct C1 as [-> ->]. lra.
    + lra.
Qed.

(** The divisor of [extractVat]: for a rate in [0, 100] it is a finite
    number between 1 and a little over 2. *)
Lemma divisor_bounds rate :
  (0 <=? rate)%float = true -> (rate <=? 100)%float = true ->
  is_finite (1 + rate / 100)%float /\
  1 - / 10 ^ 15 <= F2R (1 + rate / 100)%float <= 2 + / 10 ^ 15.
Proof.
  intros H0 H100.
  pose proof u_value as Hu. pose proof eta_small as Heta. pose proof eta_pos as Heta0.
  pose proof (leb_zero_nonneg _ H0) as Nr.
  destruct (leb_bound rate 100%float _ _ Prim2SF_100 Nr H100) as (Fr & Br).
  rewrite F2R_100 in Br.
  pose proof (div_rounded rate 100%float Fr finite_100) as Hq. rewrite F2R_100 in Hq.
  specialize (Hq ltac:(lra)).
  apply (rounded_within _ _ 1) in Hq; [|apply Rabs_le; lra|lra].
  destruct Hq as [Fq Eq]. apply Rabs_le_both in Eq.
  set (q := (rate / 100)%float) in *. fold (F2R q) in Eq. fold (is_finite q) in Fq.
  pose proof (add_rounded 1%float q finite_1 Fq) as HD. rewrite F2R_1 in HD.
  apply (rounded_within _ _ 3) in HD; [|apply Rabs_le; lra|lra].
  destruct HD as [FD ED]. apply Rabs_le_both in ED.
  split; [exact FD|]. fold (F2R (1 + q)%float) in ED. lra.
Qed.

(** ** The additive identity *)

Lemma extractVat_additive now total rate :
  (0 <=? total)%float = true -> (total <=? 1e12)%float = true ->
  (0 <=? rate)%float = true -> (rate <=? 100)%float = true ->
  exists r, VatMath.extractVat now total rate = VatMath.Return r /\
    (VatMath.roundToDecimal
       (VatMath.priceExcludingVat r + VatMath.vatAmount r) 2
     =? VatMath.priceIncludingVat r)%float = true.
Proof.
  intros Ht0 Ht1 Hr0 Hr1.
  pose proof u_value as Hu. pose proof eta_small as Heta. pose proof eta_pos as Heta0.
  pose proof (leb_zero_nonneg _ Ht0) as Nt. pose proof (leb_zero_nonneg _ Hr0) as Nr.
  unfold VatMath.extractVat.
  rewrite (leb_zero_not_ltb _ Ht0), (leb_zero_not_ltb _ Hr0),
    (leb_not_ltb rate 100%float _ _ Prim2SF_100 Nr Hr1).
  cbn [orb]. eexists. split; [reflexivity|]. cbn [VatMath.priceExcludingVat
    VatMath.vatAmount VatMath.priceIncludingVat].
  destruct (leb_bound total 1e12%float _ _ Prim2SF_1e12 Nt Ht1) as (Ft & Bt).
  rewrite F2R_1e12 in Bt.
  destruct (divisor_bounds rate Hr0 Hr1) as (FD & BD).
  set (D := (1 + rate / 100)%float) in *.
  (* the quotient *)
  pose proof (div_rounded total D Ft FD ltac:(lra)) as Hy.
  assert (Hquot : 0 <= F2R total / F2R D <= 10 ^ 12 + 1).
  { assert (0 < F2R D) by lra. split.
    - apply Rmult_le_pos; [lra|]. left. now apply Rinv_0_lt_compat.
    - apply (Rmult_le_reg_r (F2R D)); [assumption|].
      replace (F2R total / F2R D * F2R D) with (F2R total) by (field; lra). nra. }
  apply (rounded_within _ _ (10 ^ 12 + 1)) in Hy; [|apply Rabs_le; lra|lra].
  destruct Hy as [Fy Ey]. apply Rabs_le_both in Ey.
  set (y := (total / D)%float) in *. fold (F2R y) in Ey. fold (is_finite y) in Fy.
  (* the two rounded prices, in cents *)
  destruct (round2_floor total Ft ltac:(apply Rabs_le; lra)) as (A & CA & HA).
  destruct (round2_floor y Fy ltac:(apply Rabs_le; lra)) as (B & CB & HB).
  apply Rabs_le_both in HA, HB.
  set (incl := VatMath.roundToDecimal total 2) in *.
  set (excl := VatMath.roundToDecimal y 2) in *.
  destruct (cents_value A incl (10 ^ 12 + 1) CA ltac:(apply Rabs_le; lra) ltac:(lra))
    as (Fincl & Eincl).
  destruct (cents_value B excl (10 ^ 12 + 3) CB ltac:(apply Rabs_le; lra) ltac:(lra))
    as (Fexcl & Eexcl).
  apply Rabs_le_both in Eincl, Eexcl.
  (* their difference is the float of A - B cents *)
  pose proof (sub_rounded incl excl Fincl Fexcl) as Hd.
  apply (rounded_within _ _ (2 * 10 ^ 12 + 5)) in Hd; [|apply Rabs_le; lra|lra].
  destruct Hd as [Fd Ed]. apply Rabs_le_both in Ed.
  set (d := (incl - excl)%float) in *. fold (F2R d) in Ed. fold (is_finite d) in Fd.
  assert (CV : is_cents (A - B) (VatMath.roundToDecimal d 2)).
  { apply round2_near; [exact Fd| |]; rewrite minus_IZR; apply Rabs_le; lra. }
  set (vat := VatMath.roundToDecimal d 2) in *.
  destruct (cents_value (A - B) vat (2 * 10 ^ 12 + 5) CV
              ltac:(rewrite minus_IZR; apply Rabs_le; lra) ltac:(lra)) as (Fvat & Evat).
  apply Rabs_le_both in Evat. rewrite minus_IZR in Evat.
  (* and adding it back gives A cents again *)
  pose proof (add_rounded excl vat Fexcl Fvat) as Hs.
  apply (rounded_within _ _ (3 * 10 ^ 12 + 10)) in Hs; [|apply Rabs_le; lra|lra].
  destruct Hs as [Fs Es]. apply Rabs_le_both in Es.
  set (s := (excl + vat)%float) in *. fold (F2R s) in Es. fold (is_finite s) in Fs.
  assert (CS : is_cents A (VatMath.roundToDecimal s 2)).
  { apply round2_near; [exact Fs| |]; apply Rabs_le; lra. }
  apply (cents_eqb A); [exact CS|exact CA|apply Rabs_le; lra].
Qed.

Lemma addVat_additive now price rate :
  (0 <=? price)%float = true -> (price <? infinity)%float = true ->
  (0 <=? rate)%float = true -> (rate <=? 100)%float = true ->
  exists r, VatMath.addVat now price rate = VatMath.Return r /\
    (VatMath.roundToDecimal
       (VatMath.priceExcludingVat r + VatMath.vatAmount r) 2
     =? VatMath.priceIncludingVat r)%float = true.
Proof.
  intros Hp0 Hp1 Hr0 Hr1.
  pose proof (leb_zero_nonneg _ Hp0) as Np. pose proof (leb_zero_nonneg _ Hr0) as Nr.
  pose proof (ltb_infinity_finite _ Np Hp1) as Fp.
  destruct (leb_bound rate 100%float _ _ Prim2SF_100 Nr Hr1) as (Fr & _).
  unfold VatMath.addVat.
  rewrite (leb_zero_not_ltb _ Hp0), (leb_zero_not_ltb _ Hr0),
    (leb_not_ltb rate 100%float _ _ Prim2SF_100 Nr Hr1).
  cbn [orb]. eexists. split; [reflexivity|]. cbn [VatMath.priceExcludingVat
    VatMath.vatAmount VatMath.priceIncludingVat].
  apply nonneg_eqb_refl, nonneg_roundToDecimal, nonneg_add;
    apply nonneg_roundToDecimal; [exact Np|].
  pose proof (div_rounded rate 100%float Fr finite_100) as Hq. rewrite F2R_100 in Hq.
  specialize (Hq ltac:(lra)).
  pose proof u_value as Hu. pose proof eta_small as Heta.
  destruct (leb_bound rate 100%float _ _ Prim2SF_100 Nr Hr1) as (_ & Br).
  rewrite F2R_100 in Br.
  assert (Fq : is_finite (rate / 100)%float).
  { apply (rounded_within _ _ 1) in Hq; [apply Hq|apply Rabs_le; lra|lra]. }
  apply nonneg_mul; [exact Np|apply nonneg_div_100, Nr|now left|now left].
Qed.

(** ** Rounding to nearest *)












(** ** The operations round to nearest *)









(** ** Monotonicity on primitive floats *)


















(** ** The divisor of [extractVat] *)



Local Close Scope R_scope.

(** * The arithmetic engine: worked values *)

Import Js VatMath.

(** C9. The rounding vector: 0.1 + 0.2 (which is not 0.3) rounds to 0.30,
    10.125 to 10.13 and -10.125 to -10.12. *)
Theorem rounding_vector :
  (0.1 + 0.2 =? 0.3)%float = false /\
  roundToDecimal (0.1 + 0.2) 2 = 0.3%float /\
  roundToDecimal 10.125 2 = 10.13%float /\
  roundToDecimal (-10.125) 2 = (-10.12)%float.
Proof. by_computation. Qed.

(** C8. The worked scenarios of [addVat] and [extractVat]; the VAT of
    99.99 at 7.5% comes from the unrounded product 7.49925 and is 7.50. *)
Theorem worked_scenarios (now : float) :
  addVat now 100 7.5 = Return (mkResult Add 7.5 100 7.5 107.5 now) /\
  addVat now 99.99 7.5 = Return (mkResult Add 7.5 99.99 7.5 107.49 now) /\
  (roundToDecimal (99.99 * (7.5 / 100)) 2 =? 7.49)%float = false /\
  extractVat now 12900 7.5 = Return (mkResult Extract 7.5 12000 900 12900 now) /\
  (exists r, addVat now 0.01 7.5 = Return r /\ vatAmount r = 0%float).
Proof.
  conj_split; try (vm_compute; reflexivity).
  eexists. split; vm_compute; reflexivity.
Qed.




(** C5. [addVat] and [extractVat] throw exactly when the amount is
    negative or the rate is outside [0, 100], and return a result
    otherwise; the only thing thrown is the [Error] with one of the two
    range messages. *)
Theorem invalid_argument_iff (now amount rate : float) :
  let bad := ((amount <? 0) || ((rate <? 0) || (100 <? rate)))%float in
  ((exists msg, addVat now amount rate = Throw msg) <-> bad = true) /\
  ((exists r, addVat now amount rate = Return r) <-> bad = false) /\
  ((exists msg, extractVat now amount rate = Throw msg) <-> bad = true) /\
  ((exists r, extractVat now amount rate = Return r) <-> bad = false) /\
  (forall msg, addVat now amount rate = Throw msg ->
     msg = "Price cannot be negative"%string \/
     msg = "VAT rate must be between 0 and 100"%string) /\
  (forall msg, extractVat now amount rate = Throw msg ->
     msg = "Total price cannot be negative"%string \/
     msg = "VAT rate must be between 0 and 100"%string).
Proof.
  unfold addVat, extractVat.
  destruct (amount <? 0)%float, ((rate <? 0) || (100 <? rate))%float; cbn [orb];
    repeat split; try (intros [? H]; discriminate H); try discriminate;
    try (intros _; eexists; reflexivity);
    try (intros ? [= <-]; auto).
Qed.

(** C1, as stated, fails: at a total of 1e307 the scaling by 100 overflows,
    both prices are infinite, their difference is NaN, and the sum of the
    parts is not the total under any reading. *)
Lemma additive_identity_overflow :
  (0 <=? 1e307)%float = true /\ (0 <=? 0)%float = true /\ (0 <=? 100)%float = true /\
  exists r, extractVat 0 1e307 0 = Return r /\
    isNaN (vatAmount r) = true /\
    (priceExcludingVat r + vatAmount r =? priceIncludingVat r)%float = false /\
    (roundToDecimal (priceExcludingVat r + vatAmount r) 2
     =? priceIncludingVat r)%float = false.
Proof.
  conj_split; try (vm_compute; reflexivity).
  eexists. by_computation.
Qed.

(** C1, amended. For an amount between 0 and 1e12 and a rate in [0, 100],
    both operations return a result whose parts add up to the total once
    the sum is rounded to 2 decimals. *)
Theorem additive_identity (now amount rate : float) :
  (0 <=? amount)%float = true -> (amount <=? 1e12)%float = true ->
  (0 <=? rate)%float = true -> (rate <=? 100)%float = true ->
  (exists r, addVat now amount rate = Return r /\
     (roundToDecimal (priceExcludingVat r + vatAmount r) 2
      =? priceIncludingVat r)%float = true) /\
  (exists r, extractVat now amount rate = Return r /\
     (roundToDecimal (priceExcludingVat r + vatAmount r) 2
      =? priceIncludingVat r)%float = true).
Proof.
  intros H0 H1 R0 R1. split.
  - apply addVat_additive; try assumption.
    apply leb_zero_nonneg in H0.
    destruct (leb_bound amount 1e12%float _ _ Prim2SF_1e12 H0 H1) as (F & _).
    unfold is_finite, is_nonneg in *. rewrite FloatAxioms.ltb_spec.
    change (Prim2SF infinity) with (S754_infinity false).
    destruct (Prim2SF amount) as [s|s| |s m e]; cbn [finite nonneg] in *;
      try contradiction; [reflexivity|now subst s].
  - now apply extractVat_additive.
Qed.

Lemma additive_identity_witness :
  (exists r, addVat 0 99.99 7.5 = Return r /\
     (roundToDecimal (priceExcludingVat r + vatAmount r) 2
      =? priceIncludingVat r)%float = true) /\
  (exists r, extractVat 0 99.99 7.5 = Return r /\
     (roundToDecimal (priceExcludingVat r + vatAmount r) 2
      =? priceIncludingVat r)%float = true).
Proof. apply (additive_identity 0 99.99 7.5); reflexivity. Defined.




(** * The history store *)

Import HistoryStore.

Lemma firstn_app_firstn {A} n (l m : list A) :
  firstn n (l ++ firstn n m) = firstn n (l ++ m).
Proof.
  rewrite !firstn_app, firstn_firstn. f_equal. f_equal. lia.
Qed.

Lemma addCalculation_firstn c st :
  List.length (history st) <= maxHistorySize st ->
  history (addCalculation c st) = firstn (maxHistorySize st) (c :: history st).
Proof.
  intros Hlen. unfold addCalculation. cbn [history].
  destruct (Nat.ltb_spec (maxHistorySize st) (List.length (c :: history st))) as [L|L].
  - unfold pop. rewrite removelast_firstn_len. f_equal. cbn [List.length] in *. lia.
  - symmetry. apply firstn_all2. exact L.
Qed.

Lemma addCalculation_max c st :
  maxHistorySize (addCalculation c st) = maxHistorySize st.
Proof. reflexivity. Qed.

Lemma appends_firstn cs : forall st,
  List.length (history st) <= maxHistorySize st ->
  history (fold_left (fun s x => addCalculation x s) cs st)
  = firstn (maxHistorySize st) (rev cs ++ history st) /\
  maxHistorySize (fold_left (fun s x => addCalculation x s) cs st) = maxHistorySize st.
Proof.
  induction cs as [|x cs IH]; intros st Hlen; cbn [fold_left rev app].
  - split; [|reflexivity]. symmetry. now apply firstn_all2.
  - pose proof (addCalculation_firstn x st Hlen) as Hx.
    destruct (IH (addCalculation x st)) as [H1 H2].
    + rewrite Hx, addCalculation_max. apply firstn_le_length.
    + rewrite addCalculation_max in *. split; [|exact H2].
      rewrite H1, Hx, <- app_assoc. cbn [app]. apply firstn_app_firstn.
Qed.

(** C6. With the capacity of 10 and at most 10 entries to start from,
    [addCalculation] puts the new entry first and keeps the 10 most recent:
    the oldest entry leaves when there would be 11.  After any run of
    appends the history is the last 10 of everything inserted, most recent
    first. *)
Theorem history_bounded_fifo (st : HistoryState) (c : CalculationResult)
  (cs : list CalculationResult) :
  maxHistorySize st = 10 -> List.length (history st) <= 10 ->
  history (addCalculation c st) = firstn 10 (c :: history st) /\
  List.length (history (addCalculation c st)) <= 10 /\
  (List.length (history st) = 10 ->
   history (addCalculation c st) = c :: removelast (history st)) /\
  history (fold_left (fun s x => addCalculation x s) cs st)
  = firstn 10 (rev cs ++ history st) /\
  List.length (history (fold_left (fun s x => addCalculation x s) cs st)) <= 10.
Proof.
  intros Hmax Hlen. rewrite <- Hmax in Hlen.
  pose proof (addCalculation_firstn c st Hlen) as H1.
  destruct (appends_firstn cs st Hlen) as [H2 _].
  rewrite Hmax in *. rewrite H1, H2.
  repeat split; try apply firstn_le_length.
  intros Hfull. rewrite removelast_firstn_len, Hfull. reflexivity.
Qed.

Lemma history_bounded_fifo_witness :
  let entry := fun t : float => mkResult Add 7.5 100 7.5 107.5 t in
  let st := mkStore (map entry [10; 9; 8; 7; 6; 5; 4; 3; 2; 1]%float) 10 in
  let c := entry 11%float in
  let cs := [entry 12; entry 13]%float in
  List.length (history st) = 10 /\
  history (addCalculation c st) = map entry [11; 10; 9; 8; 7; 6; 5; 4; 3; 2]%float /\
  history (fold_left (fun s x => addCalculation x s) cs st)
  = map entry [13; 12; 10; 9; 8; 7; 6; 5; 4; 3]%float /\
  history (addCalculation c st) = firstn 10 (c :: history st) /\
  List.length (history (addCalculation c st)) <= 10 /\
  (List.length (history st) = 10 ->
   history (addCalculation c st) = c :: removelast (history st)) /\
  history (fold_left (fun s x => addCalculation x s) cs st)
  = firstn 10 (rev cs ++ history st) /\
  List.length (history (fold_left (fun s x => addCalculation x s) cs st)) <= 10.
Proof.
  intros entry st c cs.
  pose proof (history_bounded_fifo st c cs eq_refl (Nat.le_refl 10)) as H.
  split; [reflexivity|].
  split; [rewrite (proj1 (proj2 (proj2 H)) eq_refl); reflexivity|].
  split; [rewrite (proj1 (proj2 (proj2 (proj2 H)))); reflexivity|].
  exact H.
Defined.

(** * The auto-save hook *)

Import Hook.
Local Open Scope string_scope.

Lemma saveToHistory_no_result h : result h = None -> saveToHistory h = h.
Proof. unfold saveToHistory. now intros ->. Qed.

Lemma cancelDebounce_result h : result (cancelDebounce h) = result h.
Proof. unfold cancelDebounce. now destruct (debounceTimerRef h). Qed.

Lemma cancelDebounce_store h : store (cancelDebounce h) = store h.
Proof. unfold cancelDebounce. now destruct (debounceTimerRef h). Qed.

(** C7, as stated, fails: an amount that does not parse to a finite number
    still gets a calculation, and a result is displayed. *)
Lemma infinite_amount_is_calculated :
  numeric_text huge_amount = true /\
  parseFloat huge_amount = infinity /\
  result (dispatch 0 (ChangeAmount huge_amount) (Hook.initial HistoryStore.initial))
  = Some (mkResult Add 7.5 infinity infinity infinity 0).
Proof. by_computation. Qed.

(** While no result is displayed, blur, Enter, a mode change and reset
    leave the history as it is. *)
Lemma no_result_no_commit h ev :
  result h = None ->
  In ev [AmountBlur; AmountKeyDown "Enter"; SetMode Add; SetMode Extract; Reset] ->
  store (handler ev h) = store h.
Proof.
  intros R [<-|[<-|[<-|[<-|[<-|[]]]]]]; cbn [handler].
  - unfold handleAmountBlur.
    rewrite saveToHistory_no_result; [apply cancelDebounce_store|].
    now rewrite cancelDebounce_result.
  - change (handleAmountKeyDown "Enter" h)
      with (handleAmountBlur (saveToHistory (cancelDebounce h))).
    unfold handleAmountBlur.
    rewrite (saveToHistory_no_result (cancelDebounce h))
      by now rewrite cancelDebounce_result.
    rewrite saveToHistory_no_result; [now rewrite !cancelDebounce_store|].
    now rewrite !cancelDebounce_result.
  - unfold handleSetMode.
    destruct (negb (mode_eqb Add (mode h)) && negb (String.eqb (amount h) ""));
      [rewrite saveToHistory_no_result by exact R|]; reflexivity.
  - unfold handleSetMode.
    destruct (negb (mode_eqb Extract (mode h)) && negb (String.eqb (amount h) ""));
      [rewrite saveToHistory_no_result by exact R|]; reflexivity.
  - unfold resetCalculator. rewrite R. cbn [store set_lastValidResultRef
      set_latestResultRef set_latestModeRef set_latestVatRateRef set_latestAmountRef
      set_result set_mode set_vatRate set_amount].
    apply cancelDebounce_store.
Qed.

(** C7, amended. When a field is empty, or parses to NaN, or the amount is
    negative, or the rate is outside [0, 100], [performCalculation] only
    clears the displayed result: nothing is calculated, no ref and no
    history entry changes; and while the result is absent, blur, Enter, a
    mode change and reset add nothing to the history. *)
Theorem validation_gate (now : float) (h : Hook) :
  rejected (amount h) (vatRate h) ->
  performCalculation now h = set_result None h /\
  forall ev, In ev [AmountBlur; AmountKeyDown "Enter"; SetMode Add; SetMode Extract; Reset] ->
    store (handler ev (performCalculation now h)) = store h.
Proof.
  intros Hrej.
  assert (E : performCalculation now h = set_result None h).
  { unfold performCalculation, rejected in *.
    destruct (String.eqb_spec (amount h) "") as [?|NA];
      destruct (String.eqb_spec (vatRate h) "") as [?|NR];
      rewrite ?orb_true_r; try reflexivity.
    destruct Hrej as [?|[?|[H|[H|[H|[H|H]]]]]]; try contradiction; rewrite H;
      rewrite ?orb_true_r; reflexivity. }
  split; [exact E|]. rewrite E. intros ev Hev.
  now rewrite (no_result_no_commit (set_result None h) ev eq_refl Hev).
Qed.

Lemma validation_gate_witness :
  let h := handler (ChangeVatRate "200")
             (dispatch 1 (ChangeAmount "5") (Hook.initial HistoryStore.initial)) in
  result h = Some (mkResult Add 7.5 5 0.38 5.38 1) /\
  result (performCalculation 2 h) = None /\
  performCalculation 2 h = set_result None h /\
  forall ev, In ev [AmountBlur; AmountKeyDown "Enter"; SetMode Add; SetMode Extract; Reset] ->
    store (handler ev (performCalculation 2 h)) = store h.
Proof.
  intros h.
  assert (R : rejected (amount h) (vatRate h)) by (do 6 right; vm_compute; reflexivity).
  pose proof (validation_gate 2 h R) as H.
  split; [vm_compute; reflexivity|].
  split; [rewrite (proj1 H); reflexivity|].
  exact H.
Defined.

(** C2: the code lets a zero-amount result into the history.  The amount
    "0" is calculated; the rate is then made invalid, which clears the
    display but leaves [latestResultRef] holding the zero result; the
    amount is changed to "6"; when the timer fires, the check on the amount
    reads "6" and the stale zero result is committed. *)
Theorem stale_zero_result_is_committed :
  let trace := [(1%float, ChangeAmount "0"); (2%float, ChangeVatRate "200");
                (3%float, ChangeAmount "6"); (4%float, TimerFires 3)] in
  let h := run trace (Hook.initial HistoryStore.initial) in
  history (store h) = [mkResult Add 7.5 0 0 0 1] /\
  result h = None /\
  lastSavedKeyRef h = "0.00-7.5-add-0.00".
Proof. by_computation. Qed.

(** C3: a mode change commits under the old mode but leaves the debounce
    timer pending, unlike blur, Enter, clearing and reset. *)
Theorem mode_change_leaves_timer :
  let h1 := run [(1%float, ChangeAmount "5")] (Hook.initial HistoryStore.initial) in
  let h2 := dispatch 2 (SetMode Extract) h1 in
  timers h1 = [1%nat] /\
  history (store h2) = [mkResult Add 7.5 5 0.38 5.38 1] /\
  mode h2 = Extract /\
  timers h2 = [1%nat] /\ debounceTimerRef h2 = Some 1%nat /\
  timers (dispatch 2 AmountBlur h1) = [] /\
  timers (dispatch 2 (AmountKeyDown "Enter") h1) = [] /\
  timers (dispatch 2 (ChangeAmount "") h1) = [] /\
  timers (dispatch 2 Reset h1) = [].
Proof. by_computation. Qed.

(** * Further properties of the arithmetic engine *)

Lemma product_bound (a b A B : R) :
  (- A <= a <= A)%R -> (- B <= b <= B)%R -> (- (A * B) <= a * b <= A * B)%R.
Proof. intros Ha Hb. split; nra. Qed.

Lemma factor_bound (x d c : R) :
  (999 / 1000 <= d)%R -> (- c <= x * d <= c)%R ->
  (- (1000 * c / 999) <= x <= 1000 * c / 999)%R.
Proof. intros Hd Hx. split; nra. Qed.

(** X1. Adding VAT to a price and extracting it again from the total, at
    the same rate: for a price in [0, 1e12] and a rate in [0, 100] both
    calls of [calculateVat] return, the two totals are the same number of
    cents, and the price that comes back is within one cent of the rounded
    price that went in. *)
Theorem add_then_extract (now now' price rate : float) :
  (0 <=? price)%float = true -> (price <=? 1e12)%float = true ->
  (0 <=? rate)%float = true -> (rate <=? 100)%float = true ->
  exists r r' (T B B' : Z),
    calculateVat now price rate Add = Return r /\
    calculateVat now' (priceIncludingVat r) rate Extract = Return r' /\
    is_cents T (priceIncludingVat r) /\ is_cents T (priceIncludingVat r') /\
    is_cents B (priceExcludingVat r) /\ is_cents B' (priceExcludingVat r') /\
    (Z.abs (B' - B) <= 1)%Z.
Proof.
  intros Ht0 Ht1 Hr0 Hr1.
  pose proof u_value as Hu. pose proof eta_small as Heta. pose proof eta_pos as Heta0.
  pose proof (leb_zero_nonneg _ Ht0) as Nt. pose proof (leb_zero_nonneg _ Hr0) as Nr.
  destruct (leb_bound price 1e12%float _ _ Prim2SF_1e12 Nt Ht1) as (Ft & Bt).
  rewrite F2R_1e12 in Bt.
  destruct (leb_bound rate 100%float _ _ Prim2SF_100 Nr Hr1) as (Fr & Br).
  rewrite F2R_100 in Br.
  (* the rate as a fraction, and the raw VAT *)
  pose proof (div_rounded rate 100%float Fr finite_100) as Hq. rewrite F2R_100 in Hq.
  specialize (Hq ltac:(lra)).
  apply (rounded_within _ _ 1) in Hq; [|apply Rabs_le; lra|lra].
  destruct Hq as [Fq Eq]. apply Rabs_le_both in Eq.
  set (q := (rate / 100)%float) in *. fold (F2R q) in Eq. fold (is_finite q) in Fq.
  pose proof (mul_rounded price q Ft Fq) as Hv.
  assert (Hprod : (- 1 <= F2R price * F2R q <= 10 ^ 12 + 1)%R) by nra.
  apply (rounded_within _ _ (10 ^ 12 + 1)) in Hv; [|apply Rabs_le; lra|lra].
  destruct Hv as [Fv Ev]. apply Rabs_le_both in Ev.
  set (v := (price * q)%float) in *. fold (F2R v) in Ev. fold (is_finite v) in Fv.
  destruct (round2_floor price Ft ltac:(apply Rabs_le; lra)) as (B & CB & HB).
  destruct (round2_floor v Fv ltac:(apply Rabs_le; lra)) as (C & CC & HC).
  apply Rabs_le_both in HB, HC.
  pose proof (nonneg_roundToDecimal _ Nt) as Nexcl.
  assert (Nvat : is_nonneg (roundToDecimal v 2)).
  { apply nonneg_roundToDecimal.
    apply nonneg_mul; [exact Nt|apply nonneg_div_100, Nr|now left|now left]. }
  set (excl := roundToDecimal price 2) in *.
  set (vat := roundToDecimal v 2) in *.
  destruct (cents_value B excl (10 ^ 12 + 1) CB ltac:(apply Rabs_le; lra) ltac:(lra))
    as (Fexcl & Eexcl).
  destruct (cents_value C vat (10 ^ 12 + 3) CC ltac:(apply Rabs_le; lra) ltac:(lra))
    as (Fvat & Evat).
  apply Rabs_le_both in Eexcl, Evat.
  pose proof (add_rounded excl vat Fexcl Fvat) as Hs.
  apply (rounded_within _ _ (2 * 10 ^ 12 + 5)) in Hs; [|apply Rabs_le; lra|lra].
  destruct Hs as [Fs Es]. apply Rabs_le_both in Es.
  set (s := (excl + vat)%float) in *. fold (F2R s) in Es. fold (is_finite s) in Fs.
  assert (CT : is_cents (B + C) (roundToDecimal s 2)).
  { apply round2_near; [exact Fs| |]; rewrite plus_IZR; apply Rabs_le; lra. }
  assert (Nincl : is_nonneg (roundToDecimal s 2)).
  { apply nonneg_roundToDecimal, nonneg_add; assumption. }
  set (incl := roundToDecimal s 2) in *.
  destruct (cents_value (B + C) incl (2 * 10 ^ 12 + 5) CT
              ltac:(rewrite plus_IZR; apply Rabs_le; lra) ltac:(lra))
    as (Fincl & Eincl).
  rewrite plus_IZR in Eincl. apply Rabs_le_both in Eincl.
  (* back through extractVat *)
  assert (Hneg : (incl <? 0)%float = false).
  { revert Nincl. unfold is_nonneg. rewrite FloatAxioms.ltb_spec, Prim2SF_0.
    destruct (Prim2SF incl) as [sg|sg| |sg m e]; cbn; try contradiction; auto;
      intros ->; reflexivity. }
  pose proof (add_rounded 1%float q finite_1 Fq) as HD. rewrite F2R_1 in HD.
  apply (rounded_within _ _ 3) in HD; [|apply Rabs_le; lra|lra].
  destruct HD as [FD ED]. apply Rabs_le_both in ED.
  set (D := (1 + q)%float) in *. fold (F2R D) in ED. fold (is_finite D) in FD.
  pose proof (div_rounded incl D Fincl FD ltac:(lra)) as Hy.
  set (w := (F2R incl / F2R D)%R) in *.
  assert (HwD : (w * F2R D = F2R incl)%R) by (unfold w; field; lra).
  assert (HD0 : (0 < F2R D)%R) by lra.
  assert (Hw : (- 1 <= w <= 2 * 10 ^ 12 + 6)%R).
  { split.
    - assert (0 <= w)%R; [|lra]. unfold w.
      apply Rmult_le_pos; [exact (nonneg_SF2R _ Nincl)|].
      left. now apply Rinv_0_lt_compat.
    - apply (Rmult_le_reg_r (F2R D)); [exact HD0|]. rewrite HwD. lra. }
  apply (rounded_within _ _ (2 * 10 ^ 12 + 6)) in Hy; [|apply Rabs_le; lra|lra].
  destruct Hy as [Fy Ey]. apply Rabs_le_both in Ey.
  set (y := (incl / D)%float) in *. fold (F2R y) in Ey. fold (is_finite y) in Fy.
  destruct (round2_floor y Fy ltac:(apply Rabs_le; lra)) as (B' & CB' & HB').
  apply Rabs_le_both in HB'.
  exists (mkResult Add rate excl vat incl now),
    (mkResult Extract rate (roundToDecimal y 2)
       (roundToDecimal (roundToDecimal incl 2 - roundToDecimal y 2) 2)
       (roundToDecimal incl 2) now'),
    (B + C)%Z, B, B'.
  cbn [priceExcludingVat vatAmount priceIncludingVat calculateVat].
  split.
  { unfold addVat.
    rewrite (leb_zero_not_ltb _ Ht0), (leb_zero_not_ltb _ Hr0),
      (leb_not_ltb rate 100%float _ _ Prim2SF_100 Nr Hr1).
    reflexivity. }
  split.
  { unfold extractVat.
    rewrite Hneg, (leb_zero_not_ltb _ Hr0),
      (leb_not_ltb rate 100%float _ _ Prim2SF_100 Nr Hr1).
    reflexivity. }
  split; [exact CT|].
  split.
  { apply round2_near; [exact Fincl| |]; rewrite plus_IZR; apply Rabs_le; lra. }
  split; [exact CB|]. split; [exact CB'|].
  (* the distance between the two prices, in cents *)
  pose proof (product_bound (F2R price) (F2R q - F2R rate / 100)
                (10 ^ 12) (u_rn + eta_rn) ltac:(lra) ltac:(lra)) as Hrate.
  pose proof (product_bound (IZR B) (F2R D - 1 - F2R rate / 100)
                (10 ^ 14 + 1) (4 * u_rn + 2 * eta_rn) ltac:(lra) ltac:(lra)) as HBD.
  pose proof (product_bound (IZR B - 100 * F2R price) (F2R rate / 100)
                (6 / 10) 1 ltac:(lra) ltac:(lra)) as HBr.
  assert (Hnum : (- (131 / 100) <= (100 * w - IZR B) * F2R D <= 131 / 100)%R).
  { replace ((100 * w - IZR B) * F2R D)%R
      with ((100 * F2R incl - (IZR B + IZR C))
            + (IZR C - 100 * F2R v)
            + 100 * (F2R v - F2R price * F2R q)
            + 100 * (F2R price * (F2R q - F2R rate / 100))
            - (IZR B - 100 * F2R price) * (F2R rate / 100)
            - IZR B * (F2R D - 1 - F2R rate / 100))%R
      by (rewrite <- HwD; field).
    lra. }
  pose proof (factor_bound (100 * w - IZR B) (F2R D) (131 / 100) ltac:(lra) Hnum) as Hw'.
  assert (Hdist : (- 2 < IZR B' - IZR B < 2)%R) by lra.
  rewrite <- minus_IZR in Hdist. destruct Hdist as [L U].
  apply lt_IZR in L, U. lia.
Qed.

Lemma add_then_extract_witness :
  exists r r' (T B B' : Z),
    calculateVat 0 99.99 7.5 Add = Return r /\
    calculateVat 1 (priceIncludingVat r) 7.5 Extract = Return r' /\
    is_cents T (priceIncludingVat r) /\ is_cents T (priceIncludingVat r') /\
    is_cents B (priceExcludingVat r) /\ is_cents B' (priceExcludingVat r') /\
    (Z.abs (B' - B) <= 1)%Z.
Proof. apply (add_then_extract 0 1 99.99 7.5); reflexivity. Defined.

(** X2. For every finite price that is not negative (no bound on its
    size) and every rate in [0, 100], [addVat] returns a result whose three
    amounts are numbers without a minus sign (never NaN, never negative)
    and whose parts add up to the total after rounding to 2 decimals. *)
Theorem addVat_finite_price (now price rate : float) :
  (0 <=? price)%float = true -> (price <? infinity)%float = true ->
  (0 <=? rate)%float = true -> (rate <=? 100)%float = true ->
  exists r, addVat now price rate = Return r /\
    is_nonneg (priceExcludingVat r) /\ is_nonneg (vatAmount r) /\
    is_nonneg (priceIncludingVat r) /\
    (roundToDecimal (priceExcludingVat r + vatAmount r) 2
     =? priceIncludingVat r)%float = true.
Proof.
  intros Hp0 Hp1 Hr0 Hr1.
  destruct (addVat_additive now price rate Hp0 Hp1 Hr0 Hr1) as (r & Hr & Hid).
  exists r. split; [exact Hr|].
  pose proof (leb_zero_nonneg _ Hp0) as Np. pose proof (leb_zero_nonneg _ Hr0) as Nr.
  pose proof (ltb_infinity_finite _ Np Hp1) as Fp.
  destruct (leb_bound rate 100%float _ _ Prim2SF_100 Nr Hr1) as (Fr & Br).
  rewrite F2R_100 in Br.
  unfold addVat in Hr.
  rewrite (leb_zero_not_ltb _ Hp0), (leb_zero_not_ltb _ Hr0),
    (leb_not_ltb rate 100%float _ _ Prim2SF_100 Nr Hr1) in Hr.
  cbn [orb] in Hr. injection Hr as <-.
  cbn [priceExcludingVat vatAmount priceIncludingVat] in *.
  assert (Nq : is_nonneg (roundToDecimal (price * (rate / 100)) 2)).
  { apply nonneg_roundToDecimal.
    pose proof (div_rounded rate 100%float Fr finite_100) as Hq. rewrite F2R_100 in Hq.
    specialize (Hq ltac:(lra)).
    pose proof u_value as Hu. pose proof eta_small as Heta.
    assert (Fq : is_finite (rate / 100)%float).
    { apply (rounded_within _ _ 1) in Hq; [apply Hq|apply Rabs_le; lra|lra]. }
    apply nonneg_mul; [exact Np|apply nonneg_div_100, Nr|now left|now left]. }
  pose proof (nonneg_roundToDecimal _ Np) as Ne.
  repeat split; try assumption.
  apply nonneg_roundToDecimal, nonneg_add; assumption.
Qed.

Lemma addVat_finite_price_witness :
  exists r, addVat 0 1e300 7.5 = Return r /\
    is_nonneg (priceExcludingVat r) /\ is_nonneg (vatAmount r) /\
    is_nonneg (priceIncludingVat r) /\
    (roundToDecimal (priceExcludingVat r + vatAmount r) 2
     =? priceIncludingVat r)%float = true.
Proof. apply (addVat_finite_price 0 1e300 7.5); reflexivity. Defined.

(** X3. For 0 <= x <= 1e12, [roundToDecimal x 2] is a whole number of
    cents [K] divided by 100, with [K] within 0.6 of [100 x]; rounding it
    again changes nothing. *)
Theorem roundToDecimal_cents (x : float) :
  (0 <=? x)%float = true -> (x <=? 1e12)%float = true ->
  (exists K : Z,
      is_cents K (roundToDecimal x 2) /\
      (Rabs (IZR K - 100 * F2R x) <= 6 / 10)%R) /\
  (roundToDecimal (roundToDecimal x 2) 2 =? roundToDecimal x 2)%float = true.
Proof.
  intros H0 H1.
  pose proof u_value as Hu. pose proof eta_small as Heta. pose proof eta_pos as Heta0.
  pose proof (leb_zero_nonneg _ H0) as Nx.
  destruct (leb_bound x 1e12%float _ _ Prim2SF_1e12 Nx H1) as (Fx & Bx).
  rewrite F2R_1e12 in Bx.
  destruct (round2_floor x Fx ltac:(apply Rabs_le; lra)) as (K & CK & HK).
  split; [exists K; now split|].
  apply Rabs_le_both in HK.
  destruct (cents_value K _ (10 ^ 12 + 1) CK ltac:(apply Rabs_le; lra) ltac:(lra))
    as (Fr & Er).
  apply Rabs_le_both in Er.
  apply (cents_eqb K); [|exact CK|apply Rabs_le; lra].
  apply round2_near; [exact Fr| |]; apply Rabs_le; lra.
Qed.

Lemma roundToDecimal_cents_witness :
  (exists K : Z,
      is_cents K (roundToDecimal 99.995 2) /\
      (Rabs (IZR K - 100 * F2R 99.995) <= 6 / 10)%R) /\
  (roundToDecimal (roundToDecimal 99.995 2) 2 =? roundToDecimal 99.995 2)%float = true.
Proof. apply (roundToDecimal_cents 99.995); reflexivity. Defined.

(** X4. For an amount in [0, 1e12] and a rate in [0, 100] the three
    amounts of a result are whole numbers of cents that add up exactly:
    total = price + VAT for [addVat], VAT = total - price for
    [extractVat]. *)
Theorem parts_in_cents (now amount rate : float) :
  (0 <=? amount)%float = true -> (amount <=? 1e12)%float = true ->
  (0 <=? rate)%float = true -> (rate <=? 100)%float = true ->
  (exists r (B C : Z), addVat now amount rate = Return r /\
     is_cents B (priceExcludingVat r) /\ is_cents C (vatAmount r) /\
     is_cents (B + C) (priceIncludingVat r)) /\
  (exists r (A B : Z), extractVat now amount rate = Return r /\
     is_cents A (priceIncludingVat r) /\ is_cents B (priceExcludingVat r) /\
     is_cents (A - B) (vatAmount r)).
Proof.
  intros Ht0 Ht1 Hr0 Hr1.
  pose proof u_value as Hu. pose proof eta_small as Heta. pose proof eta_pos as Heta0.
  pose proof (leb_zero_nonneg _ Ht0) as Nt. pose proof (leb_zero_nonneg _ Hr0) as Nr.
  destruct (leb_bound amount 1e12%float _ _ Prim2SF_1e12 Nt Ht1) as (Ft & Bt).
  rewrite F2R_1e12 in Bt.
  destruct (leb_bound rate 100%float _ _ Prim2SF_100 Nr Hr1) as (Fr & Br).
  rewrite F2R_100 in Br.
  split.
  - unfold addVat.
    rewrite (leb_zero_not_ltb _ Ht0), (leb_zero_not_ltb _ Hr0),
      (leb_not_ltb rate 100%float _ _ Prim2SF_100 Nr Hr1).
    cbn [orb].
    (* the rate as a fraction, and the raw VAT *)
    pose proof (div_rounded rate 100%float Fr finite_100) as Hq. rewrite F2R_100 in Hq.
    specialize (Hq ltac:(lra)).
    apply (rounded_within _ _ 1) in Hq; [|apply Rabs_le; lra|lra].
    destruct Hq as [Fq Eq]. apply Rabs_le_both in Eq.
    set (q := (rate / 100)%float) in *. fold (F2R q) in Eq. fold (is_finite q) in Fq.
    pose proof (mul_rounded amount q Ft Fq) as Hv.
    assert (Hprod : (- 1 <= F2R amount * F2R q <= 10 ^ 12 + 1)%R) by nra.
    apply (rounded_within _ _ (10 ^ 12 + 1)) in Hv; [|apply Rabs_le; lra|lra].
    destruct Hv as [Fv Ev]. apply Rabs_le_both in Ev.
    set (v := (amount * q)%float) in *. fold (F2R v) in Ev. fold (is_finite v) in Fv.
    destruct (round2_floor amount Ft ltac:(apply Rabs_le; lra)) as (B & CB & HB).
    destruct (round2_floor v Fv ltac:(apply Rabs_le; lra)) as (C & CC & HC).
    apply Rabs_le_both in HB, HC.
    set (excl := roundToDecimal amount 2) in *.
    set (vat := roundToDecimal v 2) in *.
    destruct (cents_value B excl (10 ^ 12 + 1) CB ltac:(apply Rabs_le; lra) ltac:(lra))
      as (Fexcl & Eexcl).
    destruct (cents_value C vat (10 ^ 12 + 3) CC ltac:(apply Rabs_le; lra) ltac:(lra))
      as (Fvat & Evat).
    apply Rabs_le_both in Eexcl, Evat.
    pose proof (add_rounded excl vat Fexcl Fvat) as Hs.
    apply (rounded_within _ _ (2 * 10 ^ 12 + 5)) in Hs; [|apply Rabs_le; lra|lra].
    destruct Hs as [Fs Es]. apply Rabs_le_both in Es.
    set (s := (excl + vat)%float) in *. fold (F2R s) in Es. fold (is_finite s) in Fs.
    eexists _, B, C. split; [reflexivity|].
    cbn [priceExcludingVat vatAmount priceIncludingVat].
    split; [exact CB|]. split; [exact CC|].
    apply round2_near; [exact Fs| |]; rewrite plus_IZR; apply Rabs_le; lra.
  - unfold extractVat.
    rewrite (leb_zero_not_ltb _ Ht0), (leb_zero_not_ltb _ Hr0),
      (leb_not_ltb rate 100%float _ _ Prim2SF_100 Nr Hr1).
    cbn [orb].
    destruct (divisor_bounds rate Hr0 Hr1) as (FD & BD).
    set (D := (1 + rate / 100)%float) in *.
    pose proof (div_rounded amount D Ft FD ltac:(lra)) as Hy.
    assert (Hquot : (0 <= F2R amount / F2R D <= 10 ^ 12 + 1)%R).
    { assert (0 < F2R D)%R by lra. split.
      - apply Rmult_le_pos; [lra|]. left. now apply Rinv_0_lt_compat.
      - apply (Rmult_le_reg_r (F2R D)); [assumption|].
        replace (F2R amount / F2R D * F2R D)%R with (F2R amount) by (field; lra). nra. }
    apply (rounded_within _ _ (10 ^ 12 + 1)) in Hy; [|apply Rabs_le; lra|lra].
    destruct Hy as [Fy Ey]. apply Rabs_le_both in Ey.
    set (y := (amount / D)%float) in *. fold (F2R y) in Ey. fold (is_finite y) in Fy.
    destruct (round2_floor amount Ft ltac:(apply Rabs_le; lra)) as (A & CA & HA).
    destruct (round2_floor y Fy ltac:(apply Rabs_le; lra)) as (B & CB & HB).
    apply Rabs_le_both in HA, HB.
    set (incl := roundToDecimal amount 2) in *.
    set (excl := roundToDecimal y 2) in *.
    destruct (cents_value A incl (10 ^ 12 + 1) CA ltac:(apply Rabs_le; lra) ltac:(lra))
      as (Fincl & Eincl).
    destruct (cents_value B excl (10 ^ 12 + 3) CB ltac:(apply Rabs_le; lra) ltac:(lra))
      as (Fexcl & Eexcl).
    apply Rabs_le_both in Eincl, Eexcl.
    pose proof (sub_rounded incl excl Fincl Fexcl) as Hd.
    apply (rounded_within _ _ (2 * 10 ^ 12 + 5)) in Hd; [|apply Rabs_le; lra|lra].
    destruct Hd as [Fd Ed]. apply Rabs_le_both in Ed.
    set (d := (incl - excl)%float) in *. fold (F2R d) in Ed. fold (is_finite d) in Fd.
    eexists _, A, B. split; [reflexivity|].
    cbn [priceExcludingVat vatAmount priceIncludingVat].
    split; [exact CA|]. split; [exact CB|].
    apply round2_near; [exact Fd| |]; rewrite minus_IZR; apply Rabs_le; lra.
Qed.

Lemma parts_in_cents_witness :
  (exists r (B C : Z), addVat 0 99.99 7.5 = Return r /\
     is_cents B (priceExcludingVat r) /\ is_cents C (vatAmount r) /\
     is_cents (B + C) (priceIncludingVat r)) /\
  (exists r (A B : Z), extractVat 0 99.99 7.5 = Return r /\
     is_cents A (priceIncludingVat r) /\ is_cents B (priceExcludingVat r) /\
     is_cents (A - B) (vatAmount r)).
Proof. apply (parts_in_cents 0 99.99 7.5); reflexivity. Defined.

(** * Further properties of the history store *)

(** X5. [addCalculation] on any store, whatever its capacity and length:
    the capacity is kept; the history grows by one below the capacity and
    keeps its length at or above it, so a store restored with more entries
    than the capacity is never cut back to it; [clearHistory] empties the
    history, and the next entry is kept unless the capacity is 0. *)
Theorem addCalculation_any_store (c : CalculationResult) (st : HistoryState) :
  let st' := addCalculation c st in
  maxHistorySize st' = maxHistorySize st /\
  List.length (history st')
  = (if (maxHistorySize st <=? List.length (history st))%nat
     then List.length (history st) else S (List.length (history st))) /\
  history st' = firstn (Nat.max (maxHistorySize st) (List.length (history st)))
                  (c :: history st) /\
  history (clearHistory st') = [] /\
  history (addCalculation c (clearHistory st))
  = (if (maxHistorySize st =? 0)%nat then [] else [c]).
Proof.
  cbv zeta. split; [reflexivity|].
  assert (E : history (addCalculation c st)
              = firstn (Nat.max (maxHistorySize st) (List.length (history st)))
                  (c :: history st)).
  { unfold addCalculation. cbn [history].
    destruct (Nat.ltb_spec (maxHistorySize st) (List.length (c :: history st))) as [L|L].
    - unfold pop. rewrite removelast_firstn_len. f_equal. cbn [List.length] in *. lia.
    - symmetry. apply firstn_all2. cbn [List.length] in *. lia. }
  split; [|split; [exact E|split; [reflexivity|]]].
  - rewrite E, length_firstn. cbn [List.length].
    destruct (Nat.leb_spec (maxHistorySize st) (List.length (history st))); lia.
  - unfold addCalculation, clearHistory. cbn.
    destruct (maxHistorySize st) as [|n]; reflexivity.
Qed.

(** * Further properties of the hook *)

(** ** Timers *)

Lemma saveCalculation_timer r key h :
  timer_state (snd (saveCalculation r key h)) = timer_state h.
Proof. unfold saveCalculation. now destruct (String.eqb _ _). Qed.

Lemma saveToHistory_timer h : timer_state (saveToHistory h) = timer_state h.
Proof.
  unfold saveToHistory. destruct (result h); [|reflexivity].
  destruct (_ || _); [reflexivity|apply saveCalculation_timer].
Qed.

Lemma performCalculation_timer now h :
  timer_state (performCalculation now h) = timer_state h.
Proof.
  unfold performCalculation.
  destruct (_ || _); [reflexivity|].
  destruct (calculateVat _ _ _ _); [|reflexivity].
  now destruct (0 <? _)%float.
Qed.

Lemma performCalculation_ledger now h :
  ledger (performCalculation now h) = ledger h.
Proof.
  unfold performCalculation.
  destruct (_ || _); [reflexivity|].
  destruct (calculateVat _ _ _ _); [|reflexivity].
  now destruct (0 <? _)%float.
Qed.

Lemma cancelDebounce_ledger h : ledger (cancelDebounce h) = ledger h.
Proof. unfold cancelDebounce. now destruct (debounceTimerRef h). Qed.

Lemma scheduleAutoSave_ledger h : ledger (scheduleAutoSave h) = ledger h.
Proof. unfold scheduleAutoSave. now destruct (debounceTimerRef h). Qed.

Lemma timer_inv_of_state h h' :
  timer_state h' = timer_state h -> timer_inv h -> timer_inv h'.
Proof. unfold timer_state, timer_inv. intros [= -> -> _]. auto. Qed.

Lemma cancelDebounce_clears h :
  timer_inv h ->
  timers (cancelDebounce h) = [] /\ debounceTimerRef (cancelDebounce h) = None.
Proof.
  unfold timer_inv, cancelDebounce. destruct (debounceTimerRef h) as [id|] eqn:E.
  - intros T. cbn. rewrite T. cbn. rewrite Nat.eqb_refl. auto.
  - intros T. rewrite E. auto.
Qed.

Lemma scheduleAutoSave_inv h : timer_inv h -> timer_inv (scheduleAutoSave h).
Proof.
  unfold timer_inv, scheduleAutoSave. destruct (debounceTimerRef h) as [id|].
  - intros T. cbn. rewrite T. cbn. now rewrite Nat.eqb_refl.
  - intros T. cbn. now rewrite T.
Qed.

Lemma timer_inv_cleared h :
  timers h = [] -> debounceTimerRef h = None -> timer_inv h.
Proof. unfold timer_inv. now intros -> ->. Qed.

Lemma handleAmountBlur_clears h :
  timer_inv h ->
  timers (handleAmountBlur h) = [] /\ debounceTimerRef (handleAmountBlur h) = None.
Proof.
  intros I. unfold handleAmountBlur.
  pose proof (saveToHistory_timer (cancelDebounce h)) as E.
  destruct (cancelDebounce_clears h I) as [T R].
  unfold timer_state in E. injection E as E1 E2 _. now rewrite E1, E2.
Qed.

Lemma handleAmountKeyDown_Enter h :
  timer_inv h ->
  timers (handleAmountKeyDown "Enter" h) = [] /\
  debounceTimerRef (handleAmountKeyDown "Enter" h) = None.
Proof.
  intros I.
  change (handleAmountKeyDown "Enter" h)
    with (handleAmountBlur (saveToHistory (cancelDebounce h))).
  apply handleAmountBlur_clears.
  apply (timer_inv_of_state (cancelDebounce h)); [apply saveToHistory_timer|].
  destruct (cancelDebounce_clears h I). now apply timer_inv_cleared.
Qed.

Lemma resetCalculator_clears h :
  timer_inv h ->
  timers (resetCalculator h) = [] /\ debounceTimerRef (resetCalculator h) = None.
Proof.
  intros I. unfold resetCalculator.
  set (h1 := match result h with Some _ => saveToHistory h | None => h end).
  assert (I1 : timer_inv h1).
  { unfold h1. destruct (result h); [|exact I].
    now apply (timer_inv_of_state h); [apply saveToHistory_timer|]. }
  destruct (cancelDebounce_clears h1 I1) as [T R]. cbn. auto.
Qed.

Lemma handleSetAmount_inv v h : timer_inv h -> timer_inv (handleSetAmount v h).
Proof.
  intros I. unfold handleSetAmount.
  destruct (_ || _); [|exact I].
  destruct (negb (String.eqb (amount h) "") && String.eqb v "").
  - set (h0 := set_latestAmountRef v h).
    set (h1 := match lastValidResultRef h0 with
               | Some (r, key) => snd (saveCalculation r key h0)
               | None => h0 end).
    assert (I1 : timer_inv h1).
    { unfold h1. destruct (lastValidResultRef h0) as [[r key]|]; [|exact I].
      now apply (timer_inv_of_state h0); [apply saveCalculation_timer|]. }
    destruct (cancelDebounce_clears h1 I1) as [T R].
    apply timer_inv_cleared; cbn; assumption.
  - destruct (negb (String.eqb v "") && negb (String.eqb v (amount h))).
    + apply (scheduleAutoSave_inv (set_latestAmountRef v h)) in I.
      exact I.
    + exact I.
Qed.

Lemma handleSetAmount_clear_clears h :
  timer_inv h -> amount h <> "" ->
  timers (handleSetAmount "" h) = [] /\ debounceTimerRef (handleSetAmount "" h) = None.
Proof.
  intros I NE. unfold handleSetAmount. cbn [String.eqb orb].
  destruct (String.eqb_spec (amount h) "") as [E|_]; [contradiction|]. cbn [negb andb].
  set (h0 := set_latestAmountRef "" h).
  set (h1 := match lastValidResultRef h0 with
             | Some (r, key) => snd (saveCalculation r key h0)
             | None => h0 end).
  assert (I1 : timer_inv h1).
  { unfold h1. destruct (lastValidResultRef h0) as [[r key]|]; [|exact I].
    now apply (timer_inv_of_state h0); [apply saveCalculation_timer|]. }
  destruct (cancelDebounce_clears h1 I1) as [T R]. cbn. auto.
Qed.

Lemma handleSetVatRate_inv v h : timer_inv h -> timer_inv (handleSetVatRate v h).
Proof.
  intros I. unfold handleSetVatRate.
  destruct (_ || _); [|exact I].
  destruct (_ && _); [|exact I].
  apply (scheduleAutoSave_inv (set_vatRate v (set_latestVatRateRef v h))). exact I.
Qed.

Lemma handleSetMode_timer m h : timer_state (handleSetMode m h) = timer_state h.
Proof.
  unfold handleSetMode. destruct (_ && _); [|reflexivity].
  pose proof (saveToHistory_timer h) as E. unfold timer_state in *.
  injection E as E1 E2 E3. cbn. now rewrite E1, E2, E3.
Qed.

Lemma autoSaveCallback_clears h :
  timers (autoSaveCallback h) = timers h /\ debounceTimerRef (autoSaveCallback h) = None.
Proof.
  unfold autoSaveCallback. destruct (latestResultRef h); [|now cbn].
  destruct (_ || _); [now cbn|].
  destruct (String.eqb _ _); [now cbn|].
  pose proof (saveCalculation_timer c (createCalculationKey c (latestModeRef h)) h) as E.
  unfold timer_state in E. injection E as E1 E2 E3. cbn. now rewrite E2.
Qed.

Lemma handler_inv ev h : timer_inv h -> timer_inv (handler ev h).
Proof.
  intros I. destruct ev as [v|v|m| |k| |id]; cbn [handler].
  - now apply handleSetAmount_inv.
  - now apply handleSetVatRate_inv.
  - now apply (timer_inv_of_state h); [apply handleSetMode_timer|].
  - destruct (handleAmountBlur_clears h I). now apply timer_inv_cleared.
  - unfold handleAmountKeyDown. destruct (String.eqb_spec k "Enter") as [->|_]; [|exact I].
    destruct (handleAmountKeyDown_Enter h I) as [T R].
    apply timer_inv_cleared; assumption.
  - destruct (resetCalculator_clears h I). now apply timer_inv_cleared.
  - destruct (existsb (Nat.eqb id) (timers h)) eqn:Ex; [|exact I].
    destruct (autoSaveCallback_clears (clearTimeout id h)) as [T R].
    apply timer_inv_cleared; [|exact R]. rewrite T.
    unfold timer_inv in I. cbn. rewrite I in *.
    destruct (debounceTimerRef h) as [id0|]; cbn in *; [|discriminate].
    rewrite orb_false_r in Ex. apply Nat.eqb_eq in Ex. subst id0.
    now rewrite Nat.eqb_refl.
Qed.

Lemma dispatch_inv now ev h : timer_inv h -> timer_inv (dispatch now ev h).
Proof.
  intros I. unfold dispatch. apply (handler_inv ev) in I.
  destruct (_ && _); [exact I|].
  now apply (timer_inv_of_state (handler ev h)); [apply performCalculation_timer|].
Qed.

(** X6. After any run of events from the initial state at most one timer
    is pending, and it is the one [debounceTimerRef] holds. *)
Theorem one_pending_timer (st : HistoryStore.HistoryState)
  (evs : list (float * Event)) :
  timer_inv (run evs (Hook.initial st)) /\
  List.length (timers (run evs (Hook.initial st))) <= 1.
Proof.
  assert (H : forall h, timer_inv h -> timer_inv (run evs h)).
  { induction evs as [|[now ev] evs IH]; intros h I; cbn [run]; [exact I|].
    apply IH. now apply dispatch_inv. }
  specialize (H (Hook.initial st) eq_refl). split; [exact H|].
  unfold timer_inv in H. rewrite H. destruct (debounceTimerRef _); cbn; lia.
Qed.

(** X7. In a state where the ref holds the pending timer, no timer is
    pending after blur, after Enter, after reset, or after a non-empty
    amount is cleared. *)
Theorem commit_events_cancel_timer (now : float) (ev : Event) (h : Hook) :
  timer_inv h ->
  ev = AmountBlur \/ ev = AmountKeyDown "Enter" \/ ev = Reset \/
  (ev = ChangeAmount "" /\ amount h <> "") ->
  timers (dispatch now ev h) = [] /\ debounceTimerRef (dispatch now ev h) = None.
Proof.
  intros I Hev.
  assert (H : timers (handler ev h) = [] /\ debounceTimerRef (handler ev h) = None).
  { destruct Hev as [->|[->|[->|[-> NE]]]]; cbn [handler].
    - now apply handleAmountBlur_clears.
    - now apply handleAmountKeyDown_Enter.
    - now apply resetCalculator_clears.
    - now apply handleSetAmount_clear_clears. }
  unfold dispatch. destruct (_ && _); [exact H|].
  pose proof (performCalculation_timer now (handler ev h)) as E.
  unfold timer_state in E. injection E as E1 E2 _. now rewrite E1, E2.
Qed.

Lemma commit_events_cancel_timer_witness :
  let h := dispatch 1 (ChangeAmount "5") (Hook.initial HistoryStore.initial) in
  timers (dispatch 2 AmountBlur h) = [] /\
  debounceTimerRef (dispatch 2 AmountBlur h) = None.
Proof.
  intros h. apply (commit_events_cancel_timer 2 AmountBlur h).
  - vm_compute. reflexivity.
  - now left.
Defined.

(** ** Commits *)

Lemma commit_of_ledger h h1 h' :
  ledger h1 = ledger h -> at_most_one_commit h1 h' -> at_most_one_commit h h'.
Proof.
  unfold at_most_one_commit, ledger. intros [= E1 E2] [H|(r & key & H1 & H2 & H3)].
  - left. now rewrite H, E1, E2.
  - right. exists r, key. now rewrite H1, E1, <- E2.
Qed.

Lemma commit_then_ledger h h1 h' :
  at_most_one_commit h h1 -> ledger h' = ledger h1 -> at_most_one_commit h h'.
Proof.
  unfold at_most_one_commit, ledger. intros [H|(r & key & H1 & H2 & H3)] [= E1 E2].
  - left. now rewrite E1, E2.
  - right. exists r, key. now rewrite E1, E2.
Qed.

Lemma saveCalculation_commit r key h :
  at_most_one_commit h (snd (saveCalculation r key h)).
Proof.
  unfold saveCalculation. destruct (String.eqb_spec (lastSavedKeyRef h) key) as [E|NE].
  - now left.
  - right. exists r, key. cbn. repeat split. congruence.
Qed.

Lemma saveToHistory_commit h : at_most_one_commit h (saveToHistory h).
Proof.
  unfold saveToHistory. destruct (result h); [|now left].
  destruct (_ || _); [now left|apply saveCalculation_commit].
Qed.

Lemma saveToHistory_cancelDebounce h :
  saveToHistory (cancelDebounce h) = cancelDebounce (saveToHistory h).
Proof.
  destruct h as [a v m [r|] k lv [id|] la lr lm lres st ts nt];
    unfold saveToHistory, cancelDebounce, saveCalculation; cbn;
    try reflexivity;
    destruct (isNaN (parseFloat a) || (parseFloat a <=? 0)%float); cbn;
    try reflexivity;
    destruct (String.eqb k (createCalculationKey r m)); reflexivity.
Qed.

Lemma saveToHistory_idempotent h : saveToHistory (saveToHistory h) = saveToHistory h.
Proof.
  destruct h as [a v m [r|] k lv t la lr lm lres st ts nt];
    unfold saveToHistory, saveCalculation; cbn; try reflexivity.
  destruct (isNaN (parseFloat a) || (parseFloat a <=? 0)%float) eqn:EA; cbn.
  - now rewrite EA.
  - destruct (String.eqb k (createCalculationKey r m)) eqn:EK; cbn; rewrite EA.
    + now rewrite EK.
    + now rewrite String.eqb_refl.
Qed.

Lemma cancelDebounce_idempotent h :
  cancelDebounce (cancelDebounce h) = cancelDebounce h.
Proof.
  destruct h as [a v m r k lv [id|] la lr lm lres st ts nt]; reflexivity.
Qed.

Lemma handleAmountKeyDown_Enter_blur h :
  handleAmountKeyDown "Enter" h = handleAmountBlur h.
Proof.
  change (handleAmountKeyDown "Enter" h)
    with (handleAmountBlur (saveToHistory (cancelDebounce h))).
  unfold handleAmountBlur.
  rewrite (saveToHistory_cancelDebounce (saveToHistory (cancelDebounce h))).
  rewrite saveToHistory_idempotent, <- saveToHistory_cancelDebounce.
  now rewrite cancelDebounce_idempotent.
Qed.

(** X8. Pressing Enter in the amount field does what leaving the field
    does: the blur it triggers after its own save finds nothing more to
    commit; any other key changes nothing. *)
Theorem enter_is_blur (key : string) (h : Hook) :
  handler (AmountKeyDown key) h
  = if String.eqb key "Enter" then handler AmountBlur h else h.
Proof.
  cbn [handler]. destruct (String.eqb_spec key "Enter") as [->|NE].
  - apply handleAmountKeyDown_Enter_blur.
  - unfold handleAmountKeyDown. now rewrite (proj2 (String.eqb_neq key "Enter")).
Qed.

Lemma handler_commit ev h : at_most_one_commit h (handler ev h).
Proof.
  destruct ev as [v|v|m| |k| |id].
  - cbn [handler]. unfold handleSetAmount.
    destruct (_ || _); [|now left].
    destruct (negb (String.eqb (amount h) "") && String.eqb v "").
    + set (h0 := set_latestAmountRef v h).
      apply (commit_of_ledger h h0); [reflexivity|].
      set (h1 := match lastValidResultRef h0 with
                 | Some (r, key) => snd (saveCalculation r key h0)
                 | None => h0 end).
      apply (commit_then_ledger h0 h1).
      * unfold h1. destruct (lastValidResultRef h0) as [[r key]|];
          [apply saveCalculation_commit|now left].
      * cbn. apply cancelDebounce_ledger.
    + destruct (_ && _); left; [|reflexivity].
      apply (scheduleAutoSave_ledger (set_latestAmountRef v h)).
  - cbn [handler]. unfold handleSetVatRate. left.
    destruct (_ || _); [|reflexivity].
    destruct (_ && _); [|reflexivity].
    apply (scheduleAutoSave_ledger (set_vatRate v (set_latestVatRateRef v h))).
  - cbn [handler]. unfold handleSetMode. destruct (_ && _); [|now left].
    apply (commit_then_ledger h (saveToHistory h)); [apply saveToHistory_commit|reflexivity].
  - cbn [handler]. unfold handleAmountBlur.
    apply (commit_of_ledger h (cancelDebounce h)); [apply cancelDebounce_ledger|].
    apply saveToHistory_commit.
  - cbn [handler]. destruct (String.eqb_spec k "Enter") as [->|NE];
      [|unfold handleAmountKeyDown; rewrite (proj2 (String.eqb_neq k "Enter")) by exact NE;
        now left].
    rewrite handleAmountKeyDown_Enter_blur. unfold handleAmountBlur.
    apply (commit_of_ledger h (cancelDebounce h)); [apply cancelDebounce_ledger|].
    apply saveToHistory_commit.
  - cbn [handler]. unfold resetCalculator.
    set (h1 := match result h with Some _ => saveToHistory h | None => h end).
    apply (commit_then_ledger h h1).
    + unfold h1. destruct (result h); [apply saveToHistory_commit|now left].
    + cbn. apply cancelDebounce_ledger.
  - cbn [handler]. destruct (existsb _ _); [|now left].
    apply (commit_of_ledger h (clearTimeout id h)); [reflexivity|].
    unfold autoSaveCallback. destruct (latestResultRef _); [|now left].
    destruct (_ || _); [now left|].
    destruct (String.eqb _ _); [now left|].
    eapply commit_then_ledger; [apply saveCalculation_commit|reflexivity].
Qed.

(** X9. An event commits at most one result, and the key of a commit
    differs from the key of the commit before it; an edit of the amount to
    a non-empty text, an edit of the rate, and a key other than Enter
    commit nothing. *)
Theorem one_commit_per_event (now : float) (ev : Event) (h : Hook) :
  at_most_one_commit h (dispatch now ev h) /\
  (match ev with
   | ChangeAmount v => v <> ""
   | ChangeVatRate _ => True
   | AmountKeyDown k => k <> "Enter"
   | _ => False
   end -> ledger (dispatch now ev h) = ledger h).
Proof.
  split.
  - unfold dispatch. destruct (_ && _); [apply handler_commit|].
    eapply commit_then_ledger; [apply handler_commit|apply performCalculation_ledger].
  - intros Hev.
    assert (E : ledger (handler ev h) = ledger h).
    { destruct ev as [v|v|m| |k| |id]; try contradiction; cbn [handler].
      - unfold handleSetAmount. destruct (_ || _); [|reflexivity].
        destruct (String.eqb_spec v "") as [->|_]; [contradiction|].
        rewrite andb_false_r. destruct (_ && _); [|reflexivity].
        apply (scheduleAutoSave_ledger (set_latestAmountRef v h)).
      - unfold handleSetVatRate. destruct (_ || _); [|reflexivity].
        destruct (_ && _); [|reflexivity].
        apply (scheduleAutoSave_ledger (set_vatRate v (set_latestVatRateRef v h))).
      - unfold handleAmountKeyDown.
        destruct (String.eqb_spec k "Enter"); [contradiction|reflexivity]. }
    unfold dispatch. destruct (_ && _); [exact E|].
    now rewrite performCalculation_ledger.
Qed.

(** X10. The displayed result is absent after [performCalculation]
    exactly when the validation rejects the fields: on fields that pass,
    [calculateVat] always returns and the [catch] branch is never taken. *)
Theorem result_absent_iff_rejected (now : float) (h : Hook) :
  result (performCalculation now h) = None <-> rejected (amount h) (vatRate h).
Proof.
  unfold performCalculation, rejected.
  destruct (isNaN (parseFloat (amount h))) eqn:E1;
    [split; [intros _; auto 10|reflexivity]|].
  destruct (isNaN (parseFloat (vatRate h))) eqn:E2;
    [split; [intros _; auto 10|reflexivity]|].
  destruct (parseFloat (amount h) <? 0)%float eqn:E3;
    [split; [intros _; auto 10|reflexivity]|].
  destruct (parseFloat (vatRate h) <? 0)%float eqn:E4;
    [split; [intros _; auto 10|reflexivity]|].
  destruct (100 <? parseFloat (vatRate h))%float eqn:E5;
    [split; [intros _; auto 10|reflexivity]|].
  destruct (String.eqb_spec (amount h) "") as [E6|E6];
    [split; [intros _; auto 10|reflexivity]|].
  destruct (String.eqb_spec (vatRate h) "") as [E7|E7];
    [split; [intros _; auto 10|reflexivity]|].
  cbn [orb].
  assert (exists r, calculateVat now (parseFloat (amount h)) (parseFloat (vatRate h)) (mode h)
                    = Return r) as [r Hr].
  { destruct (mode h); cbn [calculateVat]; unfold addVat, extractVat;
      rewrite E3, E4, E5; cbn [orb]; eexists; reflexivity. }
  rewrite Hr. split.
  - destruct (0 <? _)%float; discriminate.
  - intros [?|[?|[?|[?|[?|[?|?]]]]]]; congruence.
Qed.

Lemma key_not_empty r m : createCalculationKey r m <> "".
Proof.
  unfold createCalculationKey.
  destruct (toFixed (priceExcludingVat r) 2); discriminate.
Qed.

(** X11. After [saveCalculation] the last saved key is the key it was
    given; saving again under that key adds nothing; a save goes through
    exactly when the key differs from the last saved one, and a key is
    never the empty text, so the first save of a session always goes
    through. *)
Theorem duplicate_suppression (r r' : CalculationResult) (m : CalculationMode)
  (h : Hook) :
  let key := createCalculationKey r m in
  let h1 := snd (saveCalculation r key h) in
  lastSavedKeyRef h1 = key /\
  saveCalculation r' key h1 = (false, h1) /\
  (fst (saveCalculation r key h) = true <-> lastSavedKeyRef h <> key) /\
  (lastSavedKeyRef h = "" ->
   store h1 = HistoryStore.addCalculation r (store h)).
Proof.
  intros key h1. unfold h1, saveCalculation.
  destruct (String.eqb_spec (lastSavedKeyRef h) key) as [E|NE]; cbn [fst snd].
  - repeat split; try assumption.
    + now rewrite E, String.eqb_refl.
    + discriminate.
    + intros NE. contradiction.
    + intros E0. exfalso. apply (key_not_empty r m). fold key. congruence.
  - cbn. rewrite String.eqb_refl. repeat split; auto.
Qed.

Lemma saveToHistory_ledger h :
  ledger (saveToHistory h)
  = match pending_commit h with
    | Some (r, key) => (HistoryStore.addCalculation r (store h), key)
    | None => ledger h
    end.
Proof.
  unfold saveToHistory, pending_commit, saveCalculation.
  destruct (result h); [|reflexivity].
  destruct (isNaN _ || _); [reflexivity|].
  destruct (String.eqb _ _); reflexivity.
Qed.

(** X12. What blur, Enter, reset and a change of mode (to a different
    mode, with a non-empty amount) commit is what [saveToHistory] commits
    in the state before the event: the displayed result under the old
    mode, if the amount parses to a number above zero and the key differs
    from the last saved one; nothing otherwise. *)
Theorem immediate_commits (now : float) (ev : Event) (h : Hook) :
  ledger (dispatch now ev h)
  = match ev with
    | AmountBlur | Reset => ledger (saveToHistory h)
    | AmountKeyDown key =>
        if String.eqb key "Enter" then ledger (saveToHistory h) else ledger h
    | SetMode newMode =>
        if negb (mode_eqb newMode (mode h)) && negb (String.eqb (amount h) "")
        then ledger (saveToHistory h) else ledger h
    | _ => ledger (handler ev h)
    end /\
  ledger (saveToHistory h)
  = match pending_commit h with
    | Some (r, key) => (HistoryStore.addCalculation r (store h), key)
    | None => ledger h
    end.
Proof.
  split; [|apply saveToHistory_ledger].
  assert (D : ledger (dispatch now ev h) = ledger (handler ev h)).
  { unfold dispatch. destruct (_ && _); [reflexivity|apply performCalculation_ledger]. }
  rewrite D. destruct ev as [v|v|m| |k| |id]; try reflexivity; cbn [handler].
  - unfold handleSetMode. now destruct (_ && _).
  - unfold handleAmountBlur.
    now rewrite saveToHistory_cancelDebounce, cancelDebounce_ledger.
  - destruct (String.eqb_spec k "Enter") as [->|NE].
    + rewrite handleAmountKeyDown_Enter_blur. unfold handleAmountBlur.
      now rewrite saveToHistory_cancelDebounce, cancelDebounce_ledger.
    + unfold handleAmountKeyDown. now rewrite (proj2 (String.eqb_neq k "Enter")).
  - unfold resetCalculator.
    set (h1 := match result h with Some _ => saveToHistory h | None => h end).
    assert (E : h1 = saveToHistory h).
    { unfold h1. destruct (result h) eqn:R; [reflexivity|].
      unfold saveToHistory. now rewrite R. }
    rewrite <- E. cbn. apply cancelDebounce_ledger.
Qed.

(** ** Typed input *)

Lemma of_uint63_nonneg n : is_nonneg (of_uint63 n).
Proof.
  unfold is_nonneg. rewrite of_uint63_spec.
  pose proof (Uint63.to_Z_bounded n) as [Hb _].
  apply (rounded_nonneg _ _ (binary_normalize_rounded _ 0)).
  apply IZR_le in Hb. rewrite bpow_0. lra.
Qed.

Lemma binary_round_nonneg m e : nonneg (binary_round prec emax false m e).
Proof.
  apply (rounded_nonneg _ _ (binary_round_rounded false m e)).
  cbn [sgnR]. pose proof (bpow_pos e).
  assert (0 < IZR (Zpos m))%R by (apply IZR_lt; lia). nra.
Qed.

(** Building a primitive float from a value without a minus sign gives a
    float without a minus sign. *)
Lemma SF2Prim_nonneg x :
  match x with
  | S754_zero _ => True
  | S754_infinity s | S754_finite s _ _ => s = false
  | S754_nan => False
  end ->
  is_nonneg (SF2Prim x).
Proof.
  destruct x as [s|s| |s m e]; try contradiction.
  - intros _. destruct s; vm_compute; exact I.
  - intros ->. vm_compute. reflexivity.
  - intros ->. unfold SF2Prim, is_nonneg. rewrite Z_ldexp_spec.
    pose proof (of_uint63_nonneg (Uint63.of_Z (Zpos m))) as N. unfold is_nonneg in N.
    destruct (Prim2SF (of_uint63 (Uint63.of_Z (Zpos m)))) as [s'|s'| |s' m' e'];
      cbn [SFldexp nonneg] in *; auto.
    subst s'. apply binary_round_nonneg.
Qed.

Lemma decimal_to_float_nonneg m k : is_nonneg (decimal_to_float m k).
Proof.
  unfold decimal_to_float.
  destruct m as [|p|p]; [vm_compute; exact I| |vm_compute; exact I].
  destruct k as [|q|q].
  - apply SF2Prim_nonneg.
    assert (N : nonneg (binary_normalize prec emax (Zpos p * 10 ^ 0) 0 false)).
    { apply (rounded_nonneg _ _ (binary_normalize_rounded _ 0)).
      rewrite bpow_0. assert (0 <= IZR (Zpos p * 10 ^ 0))%R by (apply IZR_le; lia). lra. }
    destruct (binary_normalize _ _ _ _); cbn [nonneg] in N; auto.
  - apply SF2Prim_nonneg.
    assert (N : nonneg (binary_normalize prec emax (Zpos p * 10 ^ Zpos q) 0 false)).
    { apply (rounded_nonneg _ _ (binary_normalize_rounded _ 0)).
      rewrite bpow_0.
      assert (0 <= IZR (Zpos p * 10 ^ Zpos q))%R.
      { apply IZR_le. apply Z.mul_nonneg_nonneg; [lia|]. apply Z.pow_nonneg. lia. }
      lra. }
    destruct (binary_normalize _ _ _ _); cbn [nonneg] in N; auto.
  - change (10 ^ Zpos q)%Z with (Zpos 10 ^ Zpos q)%Z. rewrite <- Pos2Z.inj_pow.
    pose proof (SFdiv_core_binary_spec p 0 (10 ^ q)%positive 0) as Hc. cbv zeta in Hc.
    destruct (SFdiv_core_binary prec emax (Zpos p) 0 (Zpos (10 ^ q)) 0) as [[mz ez] lz].
    destruct Hc as (Hq & Hl & Hb).
    apply SF2Prim_nonneg.
    assert (Hv : (0 < IZR (Zpos p) * bpow 0 / (IZR (Zpos (10 ^ q)) * bpow 0))%R).
    { rewrite bpow_0, !Rmult_1_r. apply Rdiv_lt_0_compat; apply IZR_lt; lia. }
    pose proof (binary_round_aux_rounded false mz ez lz _ Hq Hl Hv (or_intror Hb)) as Hr.
    apply rounded_nonneg in Hr; [|cbn [sgnR]; lra].
    destruct (binary_round_aux _ _ _ _ _ _); cbn [nonneg] in Hr; auto.
Qed.

Lemma nonneg_not_negative x : is_nonneg x -> (x <? 0)%float = false.
Proof.
  unfold is_nonneg. rewrite FloatAxioms.ltb_spec, Prim2SF_0.
  destruct (Prim2SF x) as [s|s| |s m e]; cbn [nonneg]; try contradiction; auto;
    intros ->; reflexivity.
Qed.

Lemma nan_not_negative : (nan <? 0)%float = false.
Proof. reflexivity. Qed.

Lemma read_unsigned_nonneg s v : read_unsigned s = Some v -> is_nonneg v.
Proof.
  unfold read_unsigned. destruct (prefix "Infinity" s).
  - intros [= <-]. vm_compute. reflexivity.
  - destruct (read_digits s 0 0) as [[iv ni] s1].
    destruct (match s1 with
              | String "."%char t =>
                  let '(v, n, t') := read_digits t iv 0 in
                  if ((ni =? 0) && (n =? 0))%Z then (iv, 0%Z, s1) else (v, n, t')
              | _ => (iv, 0%Z, s1)
              end) as [[mv nf] s2].
    destruct ((ni =? 0) && (nf =? 0))%Z; [discriminate|].
    intros [= <-]. apply decimal_to_float_nonneg.
Qed.

Lemma numeric_text_head c s :
  numeric_text (String c s) = true -> is_digit c = true \/ c = "."%char.
Proof.
  cbn [numeric_text]. destruct (is_digit c); [now left|].
  rewrite andb_true_iff. intros [E _]. right. now apply Ascii.eqb_eq.
Qed.

(** A text the input pattern accepts has no sign, so [parseFloat] reads it
    as NaN or as a number that is not negative. *)
Lemma numeric_text_not_negative s :
  numeric_text s = true -> (parseFloat s <? 0)%float = false.
Proof.
  intros H. destruct s as [|c s].
  - reflexivity.
  - apply numeric_text_head in H.
    assert (E : parseFloat (String c s)
                = match read_unsigned (String c s) with Some v => v | None => nan end).
    { destruct H as [H| ->]; [|reflexivity].
      destruct c as [[] [] [] [] [] [] [] []]; try discriminate H; reflexivity. }
    rewrite E. destruct (read_unsigned (String c s)) as [v|] eqn:R.
    + apply nonneg_not_negative. now apply (read_unsigned_nonneg _ _ R).
    + reflexivity.
Qed.

Lemma saveCalculation_fields r key h :
  amount (snd (saveCalculation r key h)) = amount h /\
  vatRate (snd (saveCalculation r key h)) = vatRate h.
Proof. unfold saveCalculation. now destruct (String.eqb _ _). Qed.

Lemma saveToHistory_fields h :
  amount (saveToHistory h) = amount h /\ vatRate (saveToHistory h) = vatRate h.
Proof.
  unfold saveToHistory. destruct (result h); [|auto].
  destruct (isNaN _ || _); [auto|apply saveCalculation_fields].
Qed.

Lemma cancelDebounce_fields h :
  amount (cancelDebounce h) = amount h /\ vatRate (cancelDebounce h) = vatRate h.
Proof. unfold cancelDebounce. now destruct (debounceTimerRef h). Qed.

Lemma scheduleAutoSave_fields h :
  amount (scheduleAutoSave h) = amount h /\ vatRate (scheduleAutoSave h) = vatRate h.
Proof. unfold scheduleAutoSave. now destruct (debounceTimerRef h). Qed.

Lemma performCalculation_fields now h :
  amount (performCalculation now h) = amount h /\
  vatRate (performCalculation now h) = vatRate h.
Proof.
  unfold performCalculation.
  destruct (isNaN _ || _ || _ || _ || _ || _ || _); [auto|].
  destruct (calculateVat _ _ _ _); [|auto].
  now destruct (0 <? _)%float.
Qed.

Lemma handleSetAmount_fields v h :
  amount (handleSetAmount v h)
  = (if String.eqb v "" || numeric_text v then v else amount h) /\
  vatRate (handleSetAmount v h) = vatRate h.
Proof.
  unfold handleSetAmount. destruct (String.eqb v "" || numeric_text v); [|auto].
  set (h0 := set_latestAmountRef v h).
  cbn [amount vatRate set_amount]. split; [reflexivity|].
  destruct (negb (String.eqb (amount h) "") && String.eqb v "").
  - set (h1 := match lastValidResultRef h0 with
               | Some (r, key) => snd (saveCalculation r key h0)
               | None => h0 end).
    assert (E1 : vatRate h1 = vatRate h).
    { unfold h1. destruct (lastValidResultRef h0) as [[r key]|]; [|reflexivity].
      now destruct (saveCalculation_fields r key h0) as [_ ->]. }
    cbn [vatRate set_latestResultRef set_lastValidResultRef].
    now destruct (cancelDebounce_fields h1) as [_ ->].
  - destruct (negb (String.eqb v "") && negb (String.eqb v (amount h))); [|reflexivity].
    now destruct (scheduleAutoSave_fields h0) as [_ ->].
Qed.

Lemma handler_fields ev h : fields_numeric h -> fields_numeric (handler ev h).
Proof.
  unfold fields_numeric. intros [Ha Hv].
  destruct ev as [v|v|m| |k| |id]; cbn [handler].
  - destruct (handleSetAmount_fields v h) as [-> ->].
    destruct (String.eqb_spec v "") as [->|_]; cbn [orb]; [now split|].
    destruct (numeric_text v) eqn:Nv; now split.
  - unfold handleSetVatRate.
    assert (Nv : (String.eqb v "" || numeric_text v) = true -> numeric_text v = true).
    { destruct (String.eqb_spec v "") as [->|_]; [reflexivity|now cbn]. }
    destruct (String.eqb v "" || numeric_text v); [|auto]. specialize (Nv eq_refl).
    destruct (_ && _).
    + destruct (scheduleAutoSave_fields (set_vatRate v (set_latestVatRateRef v h))) as [-> ->].
      auto.
    + auto.
  - unfold handleSetMode. cbn [amount vatRate set_mode set_latestModeRef].
    destruct (_ && _); [|auto].
    now destruct (saveToHistory_fields h) as [-> ->].
  - unfold handleAmountBlur.
    destruct (saveToHistory_fields (cancelDebounce h)) as [-> ->].
    now destruct (cancelDebounce_fields h) as [-> ->].
  - unfold handleAmountKeyDown. destruct (String.eqb k "Enter"); [|auto].
    unfold handleAmountBlur.
    destruct (saveToHistory_fields (cancelDebounce (saveToHistory (cancelDebounce h)))) as [-> ->].
    destruct (cancelDebounce_fields (saveToHistory (cancelDebounce h))) as [-> ->].
    destruct (saveToHistory_fields (cancelDebounce h)) as [-> ->].
    now destruct (cancelDebounce_fields h) as [-> ->].
  - unfold resetCalculator. cbn. auto.
  - destruct (existsb _ _); [|auto].
    unfold autoSaveCallback.
    destruct (latestResultRef _); [|now cbn].
    destruct (isNaN _ || _); [now cbn|].
    destruct (String.eqb _ _); [now cbn|].
    cbn [amount vatRate set_debounceTimerRef].
    destruct (saveCalculation_fields c
                (createCalculationKey c (latestModeRef (clearTimeout id h)))
                (clearTimeout id h)) as [-> ->].
    now cbn.
Qed.

(** X13. After any run of events the amount and rate fields hold texts
    the input pattern accepts, and such texts parse to NaN or to a number
    that is not negative: the checks for a negative amount or rate never
    fire on typed input. *)
Theorem typed_amounts_never_negative (st : HistoryStore.HistoryState)
  (evs : list (float * Event)) :
  let h := run evs (Hook.initial st) in
  numeric_text (amount h) = true /\ numeric_text (vatRate h) = true /\
  (parseFloat (amount h) <? 0)%float = false /\
  (parseFloat (vatRate h) <? 0)%float = false.
Proof.
  assert (H : forall h, fields_numeric h -> fields_numeric (run evs h)).
  { induction evs as [|[now ev] evs IH]; intros h F; cbn [run]; [exact F|].
    apply IH. unfold dispatch. apply (handler_fields ev) in F.
    destruct (_ && _); [exact F|]. unfold fields_numeric in *.
    now destruct (performCalculation_fields now (handler ev h)) as [-> ->]. }
  destruct (H (Hook.initial st)) as [Ha Hv]; [split; reflexivity|].
  cbv zeta. repeat split; try assumption; now apply numeric_text_not_negative.
Qed.

(** * The CSV export *)

Lemma count_char_app c s t : count_char c (s ++ t) = count_char c s + count_char c t.
Proof. induction s as [|a s IH]; cbn [append count_char]; [reflexivity|]. rewrite IH. lia. Qed.

Lemma number_text_app s t :
  number_text (s ++ t) = number_text s && number_text t.
Proof.
  induction s as [|a s IH]; cbn [append number_text]; [reflexivity|].
  now rewrite IH, andb_assoc.
Qed.

Lemma number_text_substring s : forall n m,
  number_text s = true -> number_text (substring n m s) = true.
Proof.
  induction s as [|a s IH]; intros n m H.
  - destruct n, m; reflexivity.
  - cbn [number_text] in H. apply andb_prop in H as [Ha Hs].
    destruct n as [|n]; [destruct m as [|m]|]; cbn [substring number_text].
    + reflexivity.
    + rewrite Ha. now apply IH.
    + now apply IH.
Qed.

Lemma number_text_zeros n : number_text (zeros n) = true.
Proof. induction n as [|n IH]; cbn [zeros number_text]; [reflexivity|]. now rewrite IH. Qed.

Lemma number_text_uint d :
  number_text (DecimalString.NilEmpty.string_of_uint d) = true.
Proof.
  induction d; cbn [DecimalString.NilEmpty.string_of_uint number_text];
    try rewrite IHd; reflexivity.
Qed.

Lemma number_text_digits_of_Z n : number_text (digits_of_Z n) = true.
Proof.
  unfold digits_of_Z, DecimalString.NilZero.string_of_uint.
  destruct (N.to_uint (Z.to_N n)) eqn:E; try reflexivity;
    rewrite <- E; apply number_text_uint.
Qed.

Lemma number_text_exponent_text n : number_text (exponent_text n) = true.
Proof.
  unfold exponent_text. rewrite number_text_app, number_text_digits_of_Z.
  now destruct (n <? 0)%Z.
Qed.

Lemma number_text_layout s n : number_text s = true -> number_text (layout s n) = true.
Proof.
  intros H. unfold layout.
  repeat match goal with |- context [if ?b then _ else _] => destruct b end;
    repeat rewrite number_text_app;
    rewrite ?H, ?number_text_zeros, ?number_text_exponent_text,
      ?(number_text_substring s _ _ H); reflexivity.
Qed.

Lemma number_text_Number_toString x : number_text (Number_toString x) = true.
Proof.
  unfold Number_toString.
  destruct (Prim2SF x) as [s|s| |s m e]; try reflexivity; [now destruct s|].
  destruct (shortest_digits _ _ _ _ _ _) as [d n].
  rewrite number_text_app, number_text_layout by apply number_text_digits_of_Z.
  now destruct s.
Qed.

Lemma number_text_toFixed x f : number_text (toFixed x f) = true.
Proof.
  unfold toFixed.
  destruct (Prim2SF x) as [s|s| |s m e]; try apply number_text_Number_toString.
  - destruct (f =? 0)%nat; [reflexivity|].
    rewrite number_text_app, number_text_zeros. reflexivity.
  - destruct (_ <=? _)%Z; [apply number_text_Number_toString|].
    cbv zeta.
    match goal with |- context [zeros ?k ++ digits_of_Z ?n] =>
      assert (H : number_text (zeros k ++ digits_of_Z n) = true)
        by (now rewrite number_text_app, number_text_zeros, number_text_digits_of_Z);
      set (ds := zeros k ++ digits_of_Z n) in *
    end.
    rewrite number_text_app.
    replace (number_text (if s then "-" else "")) with true by now destruct s.
    destruct (f =? 0)%nat; [exact H|].
    rewrite !number_text_app, !number_text_substring by exact H. reflexivity.
Qed.

Lemma count_char_number_text c s :
  number_char c = false -> number_text s = true -> count_char c s = 0.
Proof.
  intros Hc. induction s as [|a s IH]; cbn [number_text count_char]; [reflexivity|].
  intros H. apply andb_prop in H as [Ha Hs]. rewrite (IH Hs).
  destruct (Ascii.eqb_spec a c) as [->|_]; [congruence|reflexivity].
Qed.

Lemma count_char_toFixed c x f : number_char c = false -> count_char c (toFixed x f) = 0.
Proof. intros Hc. apply count_char_number_text; [exact Hc|apply number_text_toFixed]. Qed.

Lemma count_char_row fmt c item :
  number_char c = false ->
  count_char c "Add VAT" = 0 -> count_char c "Extract VAT" = 0 ->
  count_char c (String.concat "," (CsvExport.row fmt item))
  = count_char c (fmt (timestamp item)) + 5 * count_char c ",".
Proof.
  intros Hc Ha He. unfold CsvExport.row. cbn [String.concat].
  rewrite !count_char_app, !count_char_toFixed by exact Hc.
  assert (M : count_char c (match VatMath.mode item with
                            | Add => "Add VAT" | Extract => "Extract VAT" end) = 0)
    by now destruct (VatMath.mode item).
  rewrite M. lia.
Qed.

Lemma count_newline_lines fmt (l : list CalculationResult) first :
  (forall t, count_char "010" (fmt t) = 0) ->
  count_char "010"
    (String.concat (String "010" "")
       (first :: map (String.concat ",") (map (CsvExport.row fmt) l)))
  = count_char "010" first + List.length l.
Proof.
  intros Hf. revert first.
  induction l as [|x l IH]; intros first; cbn [map List.length].
  - cbn [String.concat]. lia.
  - change (String.concat (String "010" "") (first :: ?a :: ?r))
      with (first ++ String "010" "" ++ String.concat (String "010" "") (a :: r)).
    rewrite !count_char_app, IH.
    rewrite (count_char_row fmt "010" x eq_refl eq_refl eq_refl), Hf. cbn. lia.
Qed.

(** X14. The CSV text of a history, whatever the date formatter: the
    header has six columns; a data row has as many commas as the header
    plus those of its formatted date, the numbers and the mode adding none;
    and if the formatter never emits a line feed, there is one line per
    entry after the header. *)
Theorem csv_columns (formatDateTime : float -> string)
  (history : list CalculationResult) :
  (forall t, count_char "010" (formatDateTime t) = 0) ->
  count_char "010" (CsvExport.convertToCSV formatDateTime history)
  = List.length history /\
  count_char "," (String.concat "," CsvExport.headers) = 5 /\
  forall item,
    count_char "," (String.concat "," (CsvExport.row formatDateTime item))
    = 5 + count_char "," (formatDateTime (timestamp item)).
Proof.
  intros Hf. split; [|split; [reflexivity|]].
  - unfold CsvExport.convertToCSV. cbv zeta.
    rewrite (count_newline_lines formatDateTime history _ Hf). reflexivity.
  - intros item. rewrite (count_char_row formatDateTime "," item eq_refl eq_refl eq_refl). cbn. lia.
Qed.

Lemma csv_columns_witness :
  let fmt := fun _ : float => "11 Jan 2026, 3:45 pm" in
  let history := [mkResult Add 7.5 100 7.5 107.5 0] in
  count_char "010" (CsvExport.convertToCSV fmt history) = List.length history /\
  count_char "," (String.concat "," CsvExport.headers) = 5 /\
  forall item,
    count_char "," (String.concat "," (CsvExport.row fmt item))
    = 5 + count_char "," (fmt (timestamp item)).
Proof.
  intros fmt history. apply (csv_columns fmt history). intros t. reflexivity.
Defined.
